(** * cn-infra agent core: two-phase plugin startup and reverse-order shutdown

    A shallow embedding of [core/agent_core.go]: the [Agent] with its
    [startup] bookkeeping, the routines [NewAgent], [Start], [Stop],
    [initPlugins], [handleAfterInit] and [calculateDiff], and the
    properties of the lifecycle they implement.

    The routines are written as programs of a small monad [Prog] whose
    atomic actions are the reads and writes of the Agent's fields and the
    calls into plugins, the clock and the logger.  A program can be run to
    completion ([run]) or for a given number of atomic actions ([runN]);
    the second is what the startup deadline of [Start] observes. *)

From Stdlib Require Import ZArith Lia.
From stdpp Require Import base list strings pretty.

Local Open Scope Z_scope.
Local Open Scope nat_scope.

(** ** Data model *)

(** A [*NamedPlugin]: plugins are registered, compared ([==]) and recorded
    by reference. *)
Definition ptr := nat.

(** A Go [error] value, identified with the message its [Error()] method
    returns; a [nil] error is [None]. *)
Definition error := string.

(** The lifecycle methods a plugin may receive a call on. *)
Inductive Method := MInit | MAfterInit | MClose.

(** What the orchestrator does that the outside can observe, in order: the
    writes of the currently-processing marker and the calls into plugins
    with the error each returned. *)
Inductive Event :=
| EMark (marker : string)
| ECall (m : Method) (p : ptr) (r : option error).

(** Logger output: level, structured fields and the positional arguments. *)
Inductive Level := LDebug | LInfo | LWarn | LError.

Inductive LogVal :=
| VStr (s : string)
| VErr (e : option error)
| VInt (z : Z)
| VPlugins (l : list ptr).

Record LogEntry := mkLog {
  level : Level;
  fields : list (string * LogVal);
  args : list LogVal
}.

(** [type startup struct] *)
Record startup := mkStartup {
  MaxStartupTime : Z;
  initSuccess : list ptr;
  initDuration : Z;
  afterInitSuccess : list ptr;
  afterInitDuration : Z;
  currentlyProcessing : string
}.

(** [type Agent struct]; the embedded [logging.Logger] is the [logs] of the
    machine state below. *)
Record Agent := mkAgent {
  plugins : list ptr;
  startup_ : startup
}.

Definition with_initSuccess (v : list ptr) (a : Agent) : Agent :=
  let u := startup_ a in
  mkAgent (plugins a)
    (mkStartup (MaxStartupTime u) v (initDuration u)
       (afterInitSuccess u) (afterInitDuration u) (currentlyProcessing u)).

Definition with_initDuration (v : Z) (a : Agent) : Agent :=
  let u := startup_ a in
  mkAgent (plugins a)
    (mkStartup (MaxStartupTime u) (initSuccess u) v
       (afterInitSuccess u) (afterInitDuration u) (currentlyProcessing u)).

Definition with_afterInitSuccess (v : list ptr) (a : Agent) : Agent :=
  let u := startup_ a in
  mkAgent (plugins a)
    (mkStartup (MaxStartupTime u) (initSuccess u) (initDuration u)
       v (afterInitDuration u) (currentlyProcessing u)).

Definition with_afterInitDuration (v : Z) (a : Agent) : Agent :=
  let u := startup_ a in
  mkAgent (plugins a)
    (mkStartup (MaxStartupTime u) (initSuccess u) (initDuration u)
       (afterInitSuccess u) v (currentlyProcessing u)).

Definition with_currentlyProcessing (v : string) (a : Agent) : Agent :=
  let u := startup_ a in
  mkAgent (plugins a)
    (mkStartup (MaxStartupTime u) (initSuccess u) (initDuration u)
       (afterInitSuccess u) (afterInitDuration u) v).

(** [NewAgent(logger, maxStartup, plugins...)] *)
Definition NewAgent (maxStartup : Z) (plugs : list ptr) : Agent :=
  mkAgent plugs (mkStartup maxStartup [] 0%Z [] 0%Z "").

(** ** Integers and formatting *)

Definition minInt64 : Z := (- 2 ^ 63)%Z.
Definition maxInt64 : Z := (2 ^ 63 - 1)%Z.

(** [int64] addition wraps around. *)
Definition wrap64 (z : Z) : Z := ((z + 2 ^ 63) mod 2 ^ 64 - 2 ^ 63)%Z.

(** [Time.Sub]: the difference of two instants in nanoseconds, saturated to
    the range of [time.Duration]. *)
Definition Duration_sub (t u : Z) : Z :=
  Z.max minInt64 (Z.min maxInt64 (t - u)).

(** [fmt.Errorf(logErrorFmt, name, err, ns)] *)
Definition logErrorFmt (name : string) (err : error) (ns : Z) : string :=
  "plugin " +:+ name +:+ ": init error '" +:+ err +:+ "', duration " +:+ pretty ns.

(** [fmt.Sprintf(logSuccessFmt, name)] *)
Definition logSuccessFmt (name : string) : string :=
  "plugin " +:+ name +:+ ": init success".

(** [fmt.Errorf(logPostErrorFmt, name, err, ns)] *)
Definition logPostErrorFmt (name : string) (err : error) (ns : Z) : string :=
  "plugin " +:+ name +:+ ": post-init error '" +:+ err +:+ "', duration " +:+ pretty ns.

(** [fmt.Sprintf(logPostSuccessFmt, name)] *)
Definition logPostSuccessFmt (name : string) : string :=
  "plugin " +:+ name +:+ ": post-init success".

(** [fmt.Errorf(logTimeoutFmt, marker)] *)
Definition logTimeoutFmt (marker : string) : string :=
  "plugin " +:+ marker +:+ " not completed before timeout".

(** How a run of the orchestrator ends: it returns, or a Go run-time panic
    ends it. *)
Inductive outcome (A : Type) : Type :=
| Returned (a : A)
| Panicked.

Arguments Returned {A} a.
Arguments Panicked {A}.

(** ** Plugins, the machine state and programs *)

Section Core.

Set Default Proof Using "Type".

(** The state of everything outside the orchestrator: plugin internals,
    the network, the clock. *)
Context {W : Type}.

(** The monotonic clock reading behind [time.Now()], in nanoseconds. *)
Variable now : W -> Z.

(** Build stamps set at link time. *)
Variables BuildVersion BuildDate : string.

(** Modelled from the spec: the declarations of [Plugin], [PostInit] and
    [NamedPlugin] are not among the sources.  A plugin has the mandatory
    first-phase initializer, optionally the second-phase initializer (the
    [PostInit] capability) and optionally a release operation; each call
    acts on the outside world and returns an error or [nil]. *)
Record Plugin := mkPlugin {
  Init : W -> option error * W;
  AfterInit : option (W -> option error * W);
  Close : option (W -> option error * W)
}.

(** Modelled from the spec: a plugin instance paired with its name. *)
Record NamedPlugin := mkNamed {
  PluginName : string;
  Plugin_ : Plugin
}.

(** The heap of registered plugins; the orchestrator never writes to it. *)
Variable deref : ptr -> NamedPlugin.

Definition name_of (p : ptr) : string := PluginName (deref p).

(** The capability queries: does the plugin implement [PostInit], does it
    have a release operation. *)
Definition hasPostInit (p : ptr) : bool :=
  match AfterInit (Plugin_ (deref p)) with Some _ => true | None => false end.
Definition hasClose (p : ptr) : bool :=
  match Close (Plugin_ (deref p)) with Some _ => true | None => false end.

Record St := mkSt {
  agent : Agent;
  world : W;
  trace : list Event;
  logs : list LogEntry
}.

Definition set_agent (f : Agent -> Agent) (s : St) : St :=
  mkSt (f (agent s)) (world s) (trace s) (logs s).
Definition set_world (w : W) (s : St) : St :=
  mkSt (agent s) w (trace s) (logs s).
Definition emit (e : Event) (s : St) : St :=
  mkSt (agent s) (world s) (trace s ++ [e]) (logs s).
Definition write_log (e : LogEntry) (s : St) : St :=
  mkSt (agent s) (world s) (trace s) (logs s ++ [e]).

(** Programs: return, a Go run-time panic, or one atomic action on the
    machine state followed by the rest of the program. *)
Inductive Prog (A : Type) : Type :=
| Ret (a : A)
| Panic
| Act {X : Type} (f : St -> X * St) (k : X -> Prog A).

Arguments Ret {A} a.
Arguments Panic {A}.
Arguments Act {A X} f k.

Fixpoint bind {A B : Type} (m : Prog A) (f : A -> Prog B) : Prog B :=
  match m with
  | Ret a => f a
  | Panic => Panic
  | Act g k => Act g (fun x => bind (k x) f)
  end.

Definition act {X : Type} (f : St -> X * St) : Prog X := Act f Ret.

Notation "x <- m ;; k" := (bind m (fun x => k))
  (at level 100, m at next level, right associativity).
Notation "m ;;; k" := (bind m (fun _ => k))
  (at level 100, right associativity).

(** Run to completion. *)
Fixpoint run {A : Type} (m : Prog A) (s : St) : outcome A * St :=
  match m with
  | Ret a => (Returned a, s)
  | Panic => (Panicked, s)
  | Act f k => run (k (f s).1) (f s).2
  end.

(** Run for at most [n] atomic actions: the rest of the program and the
    state reached. *)
Fixpoint runN {A : Type} (n : nat) (m : Prog A) (s : St) : Prog A * St :=
  match n, m with
  | S n', Act f k => runN n' (k (f s).1) (f s).2
  | _, _ => (m, s)
  end.

(** Number of atomic actions of the complete run. *)
Fixpoint steps {A : Type} (m : Prog A) (s : St) : nat :=
  match m with
  | Act f k => S (steps (k (f s).1) (f s).2)
  | _ => 0
  end.

(** *** Atomic actions *)

Definition getAgent : Prog Agent := act (fun s => (agent s, s)).

Definition time_Now : Prog Z := act (fun s => (now (world s), s)).

(** [time.Since(t).Nanoseconds()] *)
Definition time_Since (t : Z) : Prog Z :=
  act (fun s => (Duration_sub (now (world s)) t, s)).

Definition log (l : Level) (fs : list (string * LogVal)) (xs : list LogVal) : Prog unit :=
  act (fun s => (tt, write_log (mkLog l fs xs) s)).

(** [agent.currentlyProcessing = marker] *)
Definition setCurrentlyProcessing (marker : string) : Prog unit :=
  act (fun s => (tt, emit (EMark marker) (set_agent (with_currentlyProcessing marker) s))).

(** [agent.initSuccess = append(agent.initSuccess, plug)] *)
Definition appendInitSuccess (plug : ptr) : Prog unit :=
  act (fun s => (tt, set_agent (fun a => with_initSuccess (initSuccess (startup_ a) ++ [plug]) a) s)).

(** [agent.afterInitSuccess = append(agent.afterInitSuccess, plug)] *)
Definition appendAfterInitSuccess (plug : ptr) : Prog unit :=
  act (fun s => (tt, set_agent (fun a => with_afterInitSuccess (afterInitSuccess (startup_ a) ++ [plug]) a) s)).

Definition setInitDuration (d : Z) : Prog unit :=
  act (fun s => (tt, set_agent (with_initDuration d) s)).

Definition setAfterInitDuration (d : Z) : Prog unit :=
  act (fun s => (tt, set_agent (with_afterInitDuration d) s)).

(** A call of a plugin method: the outside world moves on and the call is
    recorded with the error it returned. *)
Definition invoke (m : Method) (p : ptr) (f : W -> option error * W) (s : St)
  : option error * St :=
  ((f (world s)).1, emit (ECall m p (f (world s)).1) (set_world (f (world s)).2 s)).

(** [plug.Init()] *)
Definition callInit (p : ptr) : Prog (option error) :=
  act (invoke MInit p (Init (Plugin_ (deref p)))).

(** [plug2.AfterInit()], for a plugin whose second-phase hook is [f]. *)
Definition callAfterInit (p : ptr) (f : W -> option error * W) : Prog (option error) :=
  act (invoke MAfterInit p f).

(** Modelled from the spec: [safeclose.Close] is not among the sources.  It
    invokes the release operation of the plugin if the plugin has one and
    returns its error; otherwise it does nothing and returns [nil].  The
    orchestrator applies it to a registered plugin, written
    [agent.plugins[j]] in [initPlugins] and [agent.plugins[i].Plugin] in
    [Stop]. *)
Definition safeclose_Close (p : ptr) : Prog (option error) :=
  act (fun s =>
         match Close (Plugin_ (deref p)) with
         | Some f => invoke MClose p f s
         | None => (None, s)
         end).

(** [agent.plugins[i]]; an index out of range panics. *)
Definition pluginAt (i : nat) : Prog ptr :=
  a <- getAgent ;;
  match plugins a !! i with
  | Some p => Ret p
  | None => Panic
  end.

(** ** The orchestrator *)

(** [Agent.Stop]: the loop [for i := len(agent.plugins) - 1; i >= 0; i--],
    entered with [i = n - 1] and the message accumulated so far. *)
Fixpoint stopLoop (n : nat) (errMsg : string) : Prog string :=
  match n with
  | 0 => Ret errMsg
  | S i =>
      p <- pluginAt i ;;
      log LDebug [("pluginName", VStr (name_of p))] [VStr "Stopping plugin begin"] ;;;
      p <- pluginAt i ;;
      err <- safeclose_Close p ;;
      errMsg <- match err with
                | Some e =>
                    p <- pluginAt i ;;
                    Ret ((if bool_decide (0 < String.length errMsg)
                          then errMsg +:+ "; " else errMsg)
                           +:+ name_of p +:+ (": " +:+ e))
                | None => Ret errMsg
                end ;;
      p <- pluginAt i ;;
      log LDebug [("pluginName", VStr (name_of p))] [VStr "Stopping plugin end "; VErr err] ;;;
      stopLoop i errMsg
  end.

Definition Stop : Prog (option error) :=
  log LInfo [] [VStr "Stopping agent..."] ;;;
  a <- getAgent ;;
  errMsg <- stopLoop (length (plugins a)) "" ;;
  log LDebug [] [VStr "Agent stopped"] ;;;
  if bool_decide (0 < String.length errMsg) then Ret (Some errMsg) else Ret None.

(** [Agent.initPlugins]: the loop [for j := i; j >= 0; j--] that releases
    the plugins initialized so far. *)
Fixpoint rollback (j : nat) : Prog unit :=
  p <- pluginAt j ;;
  err <- safeclose_Close p ;;
  match err with
  | Some e =>
      p <- pluginAt j ;;
      log LWarn [] [VStr "err closing "; VStr (name_of p); VStr " "; VErr (Some e)]
  | None => Ret tt
  end ;;;
  match j with
  | 0 => Ret tt
  | S j' => rollback j'
  end.

(** [Agent.initPlugins]: the loop [for i, plug := range agent.plugins], at
    index [i] with [rest] still to visit; [Some err] is the early return. *)
Fixpoint initLoop (startTime : Z) (i : nat) (rest : list ptr) : Prog (option error) :=
  match rest with
  | [] => Ret None
  | plug :: rest' =>
      setCurrentlyProcessing (name_of plug +:+ " Init()") ;;;
      err <- callInit plug ;;
      match err with
      | Some e =>
          rollback i ;;;
          initErrTime <- time_Since startTime ;;
          Ret (Some (logErrorFmt (name_of plug) e initErrTime))
      | None =>
          log LInfo [] [VStr (logSuccessFmt (name_of plug))] ;;;
          appendInitSuccess plug ;;;
          initLoop startTime (S i) rest'
      end
  end.

Definition initPlugins : Prog (option error) :=
  startTime <- time_Now ;;
  a <- getAgent ;;
  r <- initLoop startTime 0 (plugins a) ;;
  match r with
  | Some err => Ret (Some err)
  | None =>
      d <- time_Since startTime ;;
      setInitDuration d ;;;
      Ret None
  end.

(** [Agent.handleAfterInit]: the loop [for _, plug := range agent.plugins]. *)
Fixpoint afterInitLoop (startTime : Z) (rest : list ptr) : Prog (option error) :=
  match rest with
  | [] => Ret None
  | plug :: rest' =>
      setCurrentlyProcessing (name_of plug +:+ " AfterInit()") ;;;
      match AfterInit (Plugin_ (deref plug)) with
      | Some plug2 =>
          log LDebug [] [VStr "afterInit begin for "; VStr (name_of plug)] ;;;
          err <- callAfterInit plug plug2 ;;
          match err with
          | Some e =>
              Stop ;;;
              afterInitErrTime <- time_Since startTime ;;
              Ret (Some (logPostErrorFmt (name_of plug) e afterInitErrTime))
          | None =>
              log LInfo [] [VStr (logPostSuccessFmt (name_of plug))] ;;;
              appendAfterInitSuccess plug ;;;
              afterInitLoop startTime rest'
          end
      | None => afterInitLoop startTime rest'
      end
  end.

Definition handleAfterInit : Prog (option error) :=
  startTime <- time_Now ;;
  a <- getAgent ;;
  r <- afterInitLoop startTime (plugins a) ;;
  match r with
  | Some err => Ret (Some err)
  | None =>
      d <- time_Since startTime ;;
      setAfterInitDuration d ;;;
      Ret None
  end.

(** [Agent.calculateDiff]: the inner loop sets [found] and does not break. *)
Definition found_in (plugin : ptr) (initialized : list ptr) : bool :=
  fold_left (fun found i => if bool_decide (plugin = i) then true else found)
    initialized false.

Definition calculateDiff (a : Agent) (initialized : list ptr) : list ptr :=
  fold_left (fun diff plugin => if found_in plugin initialized then diff else diff ++ [plugin])
    (plugins a) [].

(** [Agent.Start]: the body of the goroutine.  The error it sends on
    [errChannel] is [Some err]; closing [doneChannel] is [None]. *)
Definition startupUnit : Prog (option error) :=
  err <- initPlugins ;;
  match err with
  | Some e => Ret (Some e)
  | None =>
      err <- handleAfterInit ;;
      match err with
      | Some e => Ret (Some e)
      | None => Ret None
      end
  end.

(** [Agent.Start]: the log entry of the two failure branches of the
    [select]. *)
Definition failureReport (s : St) : St :=
  let a := agent s in
  let errInit := calculateDiff a (initSuccess (startup_ a)) in
  let errAfterInit := calculateDiff a (afterInitSuccess (startup_ a)) in
  write_log
    (mkLog LError
       [("AfterInitFail: ", VPlugins errAfterInit);
        ("AfterInit succ: ", VPlugins (afterInitSuccess (startup_ a)));
        ("Init succ: ", VPlugins (initSuccess (startup_ a)));
        ("Init fail: ", VPlugins errInit)]
       [VStr "Agent failed to start"]) s.

(** [Agent.Start]: the log entry of the [doneChannel] branch. *)
Definition successReport (s : St) : St :=
  let u := startup_ (agent s) in
  write_log
    (mkLog LInfo
       [("durationNs:", VInt (wrap64 (initDuration u + afterInitDuration u)))]
       [VStr "All plugins initialized successfully"]) s.

(** [Agent.Start]: the log entry written before the goroutine is started. *)
Definition startReport (s : St) : St :=
  write_log
    (mkLog LInfo
       [("BuildVersion", VStr BuildVersion); ("BuildDate", VStr BuildDate)]
       [VStr "Starting the agent..."]) s.

(** [Agent.Start].  The goroutine runs [startupUnit]; the caller waits in
    the [select] for its error, for its completion, or for the timer of
    [time.After(agent.MaxStartupTime)].  How much of the goroutine fits
    into that duration is decided outside the program: [expiry] is the
    number of atomic actions the goroutine has completed when the timer
    fires.  If the goroutine is finished by then the caller receives its
    result, otherwise the caller reads the Agent as it is at that moment
    and the goroutine keeps the rest of its program.  A plugin call is one
    atomic action, so a call under way when the timer fires is one the
    goroutine has not completed.  A panic of the goroutine ends the
    process.  Parsing of the command line flags is not modelled. *)
Definition Start (expiry : nat) (s : St) : outcome (option error) * St :=
  match runN expiry startupUnit (startReport s) with
  | (Ret (Some err), s1) => (Returned (Some err), failureReport s1)
  | (Ret None, s1) => (Returned None, successReport s1)
  | (Panic, s1) => (Panicked, s1)
  | (Act _ _, s1) =>
      (Returned (Some (logTimeoutFmt (currentlyProcessing (startup_ (agent s1))))),
       failureReport s1)
  end.

(** ** Vocabulary of the properties *)

(** The plugin calls of a trace, in order, without their results. *)
Definition calls (tr : list Event) : list (Method * ptr) :=
  omap (fun e => match e with ECall m p _ => Some (m, p) | EMark _ => None end) tr.

(** The values written to the currently-processing marker, in order. *)
Definition marks (tr : list Event) : list string :=
  omap (fun e => match e with EMark m => Some m | ECall _ _ _ => None end) tr.

(** The release calls on the plugins of [l] in turn, starting in world [w]:
    the events they leave and the world they end in.  A plugin without a
    release operation is passed over. *)
Fixpoint releases (l : list ptr) (w : W) : list Event * W :=
  match l with
  | [] => ([], w)
  | p :: l' =>
      match Close (Plugin_ (deref p)) with
      | Some f =>
          (ECall MClose p (f w).1 :: (releases l' (f w).2).1, (releases l' (f w).2).2)
      | None => releases l' w
      end
  end.

(** The world the release calls on [l] end in, whatever they return. *)
Fixpoint releasedWorld (l : list ptr) (w : W) : W :=
  match l with
  | [] => w
  | p :: l' =>
      match Close (Plugin_ (deref p)) with
      | Some f => releasedWorld l' (f w).2
      | None => releasedWorld l' w
      end
  end.

(** One entry [name: message] for every release call of a trace that
    returned an error. *)
Definition failures (tr : list Event) : list string :=
  omap (fun e => match e with
                 | ECall MClose p (Some err) => Some (name_of p +:+ ": " +:+ err)
                 | _ => None
                 end) tr.

(** The aggregated error of a shutdown: the entries joined with ["; "], or
    [nil] when there is none. *)
Definition aggregate (msgs : list string) : option error :=
  match msgs with
  | [] => None
  | _ => Some (String.concat "; " msgs)
  end.

(** How the loop of [Stop] extends its message by the entries [msgs]. *)
Definition accumulate (errMsg : string) (msgs : list string) : string :=
  fold_left (fun acc m =>
               (if bool_decide (0 < String.length acc) then acc +:+ "; " else acc) +:+ m)
    msgs errMsg.

(** The warning [initPlugins] logs for every release call of a trace that
    returned an error. *)
Definition closeWarnings (tr : list Event) : list LogEntry :=
  omap (fun e => match e with
                 | ECall MClose p (Some err) =>
                     Some (mkLog LWarn []
                             [VStr "err closing "; VStr (name_of p); VStr " "; VErr (Some err)])
                 | _ => None
                 end) tr.

(** [Init] succeeds on every plugin of [l] in turn, starting in world [w]:
    the world this leads to, or [None] when one of the calls fails. *)
Fixpoint initsSucceed (l : list ptr) (w : W) : option W :=
  match l with
  | [] => Some w
  | p :: l' =>
      match (Init (Plugin_ (deref p)) w).1 with
      | None => initsSucceed l' (Init (Plugin_ (deref p)) w).2
      | Some _ => None
      end
  end.

(** [AfterInit] succeeds on every plugin of [l] that has it, in turn. *)
Fixpoint afterInitsSucceed (l : list ptr) (w : W) : option W :=
  match l with
  | [] => Some w
  | p :: l' =>
      match AfterInit (Plugin_ (deref p)) with
      | Some f =>
          match (f w).1 with
          | None => afterInitsSucceed l' (f w).2
          | Some _ => None
          end
      | None => afterInitsSucceed l' w
      end
  end.

(** The marker values of the two phases. *)
Definition initMark (p : ptr) : string := name_of p +:+ " Init()".
Definition afterInitMark (p : ptr) : string := name_of p +:+ " AfterInit()".

(** The trace of a first phase in which every plugin of [l] succeeds. *)
Definition initEvents (l : list ptr) : list Event :=
  l ≫= (fun p => [EMark (initMark p); ECall MInit p None]).

(** The trace of a second phase in which every plugin of [l] succeeds. *)
Definition afterInitEvents (l : list ptr) : list Event :=
  l ≫= (fun p => EMark (afterInitMark p) ::
                  if hasPostInit p then [ECall MAfterInit p None] else []).

(** The log of a first phase in which every plugin of [l] succeeds. *)
Definition initLogs (l : list ptr) : list LogEntry :=
  (fun p => mkLog LInfo [] [VStr (logSuccessFmt (name_of p))]) <$> l.

(** [evolves s s' w tr lg i1 i2]: from [s] to [s'] the plugin list is kept,
    the world becomes [w], the trace grows by [tr], the log by [lg], and
    the two success lists by [i1] and [i2]. *)
Definition evolves (s s' : St) (w : W) (tr : list Event) (lg : list LogEntry)
  (i1 i2 : list ptr) : Prop :=
  plugins (agent s') = plugins (agent s)
  /\ world s' = w
  /\ trace s' = trace s ++ tr
  /\ logs s' = logs s ++ lg
  /\ initSuccess (startup_ (agent s')) = initSuccess (startup_ (agent s)) ++ i1
  /\ afterInitSuccess (startup_ (agent s')) = afterInitSuccess (startup_ (agent s)) ++ i2.

(** [stepwise R m]: every atomic action of [m], whatever it is given and
    in whatever state, leads to a state related by [R] to the one before. *)
Fixpoint stepwise {A : Type} (R : St -> St -> Prop) (m : Prog A) : Prop :=
  match m with
  | Act f k => (forall s, R s (f s).2) /\ (forall x, stepwise R (k x))
  | _ => True
  end.

(** The marker holds the value last written to it. *)
Definition marker_is_last_mark (s : St) : Prop :=
  currentlyProcessing (startup_ (agent s)) = default "" (last (marks (trace s))).

(** What no action of the orchestrator undoes: the plugin list is kept,
    the trace and the two success lists only grow at their end, and the
    marker stays the value last written. *)
Definition extends (s s' : St) : Prop :=
  plugins (agent s') = plugins (agent s)
  /\ trace s `prefix_of` trace s'
  /\ initSuccess (startup_ (agent s)) `prefix_of` initSuccess (startup_ (agent s'))
  /\ afterInitSuccess (startup_ (agent s)) `prefix_of` afterInitSuccess (startup_ (agent s'))
  /\ (marker_is_last_mark s -> marker_is_last_mark s').

(** The first phase leaves the second success list alone, the second phase
    the first. *)
Definition keeps_afterInitSuccess (s s' : St) : Prop :=
  afterInitSuccess (startup_ (agent s')) = afterInitSuccess (startup_ (agent s)).

Definition keeps_initSuccess (s s' : St) : Prop :=
  initSuccess (startup_ (agent s')) = initSuccess (startup_ (agent s)).

(** Every call of a first- or second-phase initializer in the trace comes
    directly after the write of the marker that announces it. *)
Definition announced (tr : list Event) : Prop :=
  forall t1 m q r t2, tr = t1 ++ ECall m q r :: t2 ->
    match m with
    | MInit => last t1 = Some (EMark (initMark q))
    | MAfterInit => last t1 = Some (EMark (afterInitMark q))
    | MClose => True
    end.

(** The marker values of a startup in which nothing fails. *)
Definition allMarks (l : list ptr) : list string :=
  (initMark <$> l) ++ (afterInitMark <$> l).

(** The relations kept by the actions of both phases, of the first phase
    and of the second phase. *)
Definition steady (s s' : St) : Prop :=
  extends s s' /\ keeps_afterInitSuccess s s' /\ keeps_initSuccess s s'.

Definition phase1 (s s' : St) : Prop := extends s s' /\ keeps_afterInitSuccess s s'.

Definition phase2 (s s' : St) : Prop := extends s s' /\ keeps_initSuccess s s'.

(** A second-phase call is made on a plugin only if it implements the
    second phase. *)
Definition capable (e : Event) : Prop :=
  match e with
  | ECall MAfterInit q _ => hasPostInit q
  | _ => True
  end.

(** The machine before [Start]: a new Agent, nothing observed yet. *)
Definition boot (maxStartup : Z) (l : list ptr) (w : W) : St :=
  mkSt (NewAgent maxStartup l) w [] [].

(** The machine when the goroutine of [Start] has completed [n] atomic
    actions, and the program the goroutine still has to run then. *)
Definition snapshot (n : nat) (s : St) : St :=
  (runN n startupUnit (startReport s)).2.


(** What holds of the trace and the success lists when the startup is
    over, and of every part of them reached before. *)
Definition orderly (l : list ptr) (tr : list Event) (i1 i2 : list ptr) : Prop :=
  marks tr `prefix_of` allMarks l
  /\ announced tr
  /\ Forall capable tr
  /\ i1 `prefix_of` l
  /\ exists d, d `prefix_of` l /\ i2 = filter hasPostInit d.

(** The two success lists follow the registration: both are subsequences
    of the registered list [l], and the second holds only plugins that are
    in the first and implement the second phase. *)
Definition follows_registration (l : list ptr) (s : St) : Prop :=
  initSuccess (startup_ (agent s)) `sublist_of` l
  /\ afterInitSuccess (startup_ (agent s)) `sublist_of` l
  /\ forall p, p ∈ afterInitSuccess (startup_ (agent s)) ->
       p ∈ initSuccess (startup_ (agent s)) /\ hasPostInit p.

(** The three ways the startup can end, seen from the state [s] it began
    in: the first phase fails at index [k], the second phase fails at
    index [k], or both phases succeed. *)
Inductive ending (s : St) : option error -> St -> Prop :=
| ending_init (k : nat) (p : ptr) (wk : W) (e : error) (s' : St) :
    plugins (agent s) !! k = Some p ->
    initsSucceed (take k (plugins (agent s))) (world s) = Some wk ->
    (Init (Plugin_ (deref p)) wk).1 = Some e ->
    trace s' =
      trace s ++ initEvents (take k (plugins (agent s)))
        ++ [EMark (initMark p); ECall MInit p (Some e)]
        ++ (releases (reverse (take (S k) (plugins (agent s))))
              (Init (Plugin_ (deref p)) wk).2).1 ->
    initSuccess (startup_ (agent s')) =
      initSuccess (startup_ (agent s)) ++ take k (plugins (agent s)) ->
    afterInitSuccess (startup_ (agent s')) = afterInitSuccess (startup_ (agent s)) ->
    ending s
      (Some (logErrorFmt (name_of p) e (Duration_sub (now (world s')) (now (world s))))) s'
| ending_afterInit (w1 : W) (k : nat) (p : ptr) (f : W -> option error * W) (wk : W)
    (e : error) (s' : St) :
    initsSucceed (plugins (agent s)) (world s) = Some w1 ->
    plugins (agent s) !! k = Some p ->
    AfterInit (Plugin_ (deref p)) = Some f ->
    afterInitsSucceed (take k (plugins (agent s))) w1 = Some wk ->
    (f wk).1 = Some e ->
    trace s' =
      trace s ++ initEvents (plugins (agent s))
        ++ afterInitEvents (take k (plugins (agent s)))
        ++ [EMark (afterInitMark p); ECall MAfterInit p (Some e)]
        ++ (releases (reverse (plugins (agent s))) (f wk).2).1 ->
    initSuccess (startup_ (agent s')) =
      initSuccess (startup_ (agent s)) ++ plugins (agent s) ->
    afterInitSuccess (startup_ (agent s')) =
      afterInitSuccess (startup_ (agent s))
        ++ filter hasPostInit (take k (plugins (agent s))) ->
    ending s
      (Some (logPostErrorFmt (name_of p) e (Duration_sub (now (world s')) (now w1)))) s'
| ending_ok (w1 w2 : W) (s' : St) :
    initsSucceed (plugins (agent s)) (world s) = Some w1 ->
    afterInitsSucceed (plugins (agent s)) w1 = Some w2 ->
    trace s' =
      trace s ++ initEvents (plugins (agent s)) ++ afterInitEvents (plugins (agent s)) ->
    initSuccess (startup_ (agent s')) =
      initSuccess (startup_ (agent s)) ++ plugins (agent s) ->
    afterInitSuccess (startup_ (agent s')) =
      afterInitSuccess (startup_ (agent s)) ++ filter hasPostInit (plugins (agent s)) ->
    ending s None s'.

(** ** Running programs *)

Lemma run_bind {A B : Type} (m : Prog A) (f : A -> Prog B) (s : St) :
  run (bind m f) s =
  match run m s with
  | (Returned a, s') => run (f a) s'
  | (Panicked, s') => (Panicked, s')
  end.
Proof.
  revert s. induction m as [a| |X g k IH]; intros s; simpl; auto.
Qed.

(** With enough actions allowed, [runN] reaches the end of the run. *)
Lemma runN_finished {A : Type} (n : nat) (m : Prog A) (s : St) :
  steps m s <= n ->
  runN n m s =
  match run m s with
  | (Returned a, s') => (Ret a, s')
  | (Panicked, s') => (Panic, s')
  end.
Proof.
  revert m s. induction n as [|n IH]; intros m s Hn.
  - destruct m; simpl in *; auto; lia.
  - destruct m as [a| |X g k]; simpl in *; auto.
    apply IH. lia.
Qed.

(** Stopped earlier, the program is at an action it has not performed. *)
Lemma runN_unfinished {A : Type} (n : nat) (m : Prog A) (s : St) :
  n < steps m s ->
  exists (X : Type) (g : St -> X * St) (k : X -> Prog A), (runN n m s).1 = Act g k.
Proof.
  revert m s. induction n as [|n IH]; intros m s Hn.
  - destruct m as [a| |X g k]; simpl in *; try lia. eauto.
  - destruct m as [a| |X g k]; simpl in *; try lia.
    apply IH. lia.
Qed.

(** The rest of a program, run from the state reached, ends as the whole
    program does. *)
Lemma run_resume {A : Type} (n : nat) (m : Prog A) (s : St) :
  run (runN n m s).1 (runN n m s).2 = run m s.
Proof.
  revert m s. induction n as [|n IH]; intros m s.
  - destruct m; reflexivity.
  - destruct m as [a| |X g k]; simpl; auto.
Qed.

(** ** Strings *)

Lemma append_cons (x : Ascii.ascii) (a b : string) :
  String x a +:+ b = String x (a +:+ b).
Proof. reflexivity. Qed.

Lemma append_assoc (a b c : string) : (a +:+ b) +:+ c = a +:+ (b +:+ c).
Proof. induction a as [|x a IH]; [reflexivity|]. rewrite !append_cons. by rewrite IH. Qed.

Lemma length_append (a b : string) :
  String.length (a +:+ b) = String.length a + String.length b.
Proof.
  induction a as [|x a IH]; [reflexivity|]. rewrite append_cons. simpl. by rewrite IH.
Qed.

Lemma accumulate_concat (acc : string) (msgs : list string) :
  0 < String.length acc ->
  accumulate acc msgs = String.concat "; " (acc :: msgs).
Proof.
  revert acc. induction msgs as [|m ms IH]; intros acc Hacc; [reflexivity|].
  unfold accumulate in *. cbn [fold_left]. rewrite bool_decide_true by done.
  rewrite IH by (rewrite !length_append; simpl; lia).
  destruct ms as [|x ms]; cbn [String.concat]. all: by rewrite !append_assoc.
Qed.

Lemma accumulate_empty (msgs : list string) :
  Forall (fun m => 0 < String.length m) msgs ->
  accumulate "" msgs = String.concat "; " msgs.
Proof.
  intros H. destruct H as [|m ms Hm Hms]; [reflexivity|].
  unfold accumulate. cbn [fold_left]. rewrite bool_decide_false by (simpl; lia).
  change ("" +:+ m) with m. by apply accumulate_concat.
Qed.

Lemma failures_nonempty (tr : list Event) :
  Forall (fun m => 0 < String.length m) (failures tr).
Proof.
  induction tr as [|e tr IH]; [constructor|].
  unfold failures in *. destruct e as [m|[] p [err|]]; cbn; auto.
  constructor; [|exact IH]. rewrite !length_append. simpl. lia.
Qed.

(** The message of [Stop] is non-empty exactly when an entry was added. *)
Lemma accumulate_failures (tr : list Event) :
  (if bool_decide (0 < String.length (accumulate "" (failures tr)))
   then Some (accumulate "" (failures tr)) else None) = aggregate (failures tr).
Proof.
  rewrite accumulate_empty by apply failures_nonempty.
  pose proof (failures_nonempty tr) as H.
  destruct H as [|m ms Hm Hms]; [reflexivity|].
  unfold aggregate. rewrite bool_decide_true; [reflexivity|].
  destruct ms; cbn [String.concat]; [done|]. rewrite length_append. lia.
Qed.

(** ** Shutdown *)

Lemma run_act_bind {X B : Type} (f : St -> X * St) (k : X -> Prog B) (s : St) :
  run (bind (act f) k) s = run (k (f s).1) (f s).2.
Proof. reflexivity. Qed.

Lemma run_act_eq {X B : Type} (a : Prog X) (f : St -> X * St) (k : X -> Prog B) (s : St) :
  a = act f -> run (bind a k) s = run (k (f s).1) (f s).2.
Proof. intros ->. reflexivity. Qed.

(** Reduce the field reads of an updated state. *)
Ltac st_simpl :=
  cbn [fst snd invoke emit set_world set_agent write_log world agent trace logs
       plugins startup_ with_initSuccess with_initDuration with_afterInitSuccess
       with_afterInitDuration with_currentlyProcessing MaxStartupTime initSuccess
       initDuration afterInitSuccess afterInitDuration currentlyProcessing].

(** Perform the atomic action at the head of the program being run. *)
Ltac run_act := erewrite run_act_eq by reflexivity; st_simpl.

Lemma run_pluginAt {B : Type} (i : nat) (p : ptr) (k : ptr -> Prog B) (s : St) :
  plugins (agent s) !! i = Some p ->
  run (bind (pluginAt i) k) s = run (k p) s.
Proof.
  intros H. unfold pluginAt, getAgent, act. simpl. rewrite H. reflexivity.
Qed.

Lemma releases_app (l1 l2 : list ptr) (w : W) :
  releases (l1 ++ l2) w =
  ((releases l1 w).1 ++ (releases l2 (releases l1 w).2).1,
   (releases l2 (releases l1 w).2).2).
Proof.
  revert w. induction l1 as [|p l1 IH]; intros w; simpl.
  - by destruct (releases l2 w).
  - destruct (Close (Plugin_ (deref p))) as [f|]; simpl; rewrite IH; reflexivity.
Qed.

Lemma calls_app (t1 t2 : list Event) : calls (t1 ++ t2) = calls t1 ++ calls t2.
Proof. apply omap_app. Qed.

Lemma marks_app (t1 t2 : list Event) : marks (t1 ++ t2) = marks t1 ++ marks t2.
Proof. apply omap_app. Qed.

(** The release calls reach exactly the plugins that have a release
    operation, in the order of the list. *)
Lemma calls_releases (l : list ptr) (w : W) :
  calls (releases l w).1 = (fun p => (MClose, p)) <$> filter hasClose l.
Proof.
  revert w. induction l as [|p l IH]; intros w; [reflexivity|].
  simpl. destruct (Close (Plugin_ (deref p))) as [f|] eqn:E; simpl.
  - rewrite filter_cons_True by (unfold hasClose; by rewrite E).
    rewrite fmap_cons. f_equal. apply IH.
  - rewrite filter_cons_False by (unfold hasClose; rewrite E; simpl; intros []). apply IH.
Qed.

Lemma marks_releases (l : list ptr) (w : W) : marks (releases l w).1 = [].
Proof.
  revert w. induction l as [|p l IH]; intros w; [reflexivity|]. simpl.
  destruct (Close (Plugin_ (deref p))) as [f|]; simpl; apply IH.
Qed.

Lemma run_safeclose_Some {B : Type} (p : ptr) (f : W -> option error * W)
  (k : option error -> Prog B) (s : St) :
  Close (Plugin_ (deref p)) = Some f ->
  run (bind (safeclose_Close p) k) s =
  run (k (f (world s)).1) (emit (ECall MClose p (f (world s)).1) (set_world (f (world s)).2 s)).
Proof. intros E. unfold safeclose_Close. rewrite run_act_bind, E. reflexivity. Qed.

Lemma run_safeclose_None {B : Type} (p : ptr) (k : option error -> Prog B) (s : St) :
  Close (Plugin_ (deref p)) = None ->
  run (bind (safeclose_Close p) k) s = run (k None) s.
Proof. intros E. unfold safeclose_Close. rewrite run_act_bind, E. reflexivity. Qed.

(** The loop of [Stop] entered at index [n - 1]. *)
Lemma stopLoop_run (n : nat) (errMsg : string) (s : St) :
  n <= length (plugins (agent s)) ->
  exists s' lg,
    run (stopLoop n errMsg) s =
      (Returned
         (accumulate errMsg
            (failures (releases (reverse (take n (plugins (agent s)))) (world s)).1)),
       s')
    /\ agent s' = agent s
    /\ world s' = (releases (reverse (take n (plugins (agent s)))) (world s)).2
    /\ trace s' = trace s ++ (releases (reverse (take n (plugins (agent s)))) (world s)).1
    /\ logs s' = logs s ++ lg.
Proof.
  revert errMsg s. induction n as [|i IH]; intros errMsg s Hn.
  - exists s, []. rewrite take_0. simpl. rewrite !app_nil_r. auto.
  - destruct (lookup_lt_is_Some_2 (plugins (agent s)) i) as [p Hp]; [lia|].
    rewrite (take_S_r _ _ _ Hp), reverse_snoc.
    cbn [stopLoop releases].
    rewrite (run_pluginAt i p) by exact Hp. run_act.
    rewrite (run_pluginAt i p) by exact Hp.
    destruct (Close (Plugin_ (deref p))) as [f|] eqn:E.
    + rewrite (run_safeclose_Some p f) by exact E. st_simpl. rewrite run_bind.
      destruct (f (world s)).1 as [e|] eqn:Ee.
      * rewrite (run_pluginAt i p) by exact Hp. cbn [run].
        rewrite (run_pluginAt i p) by exact Hp. run_act.
        match goal with |- context [run (stopLoop i ?m) ?s1] =>
          destruct (IH m s1) as (s' & lg & Hrun & Ha & Hw & Ht & Hl); [simpl; lia|] end.
        eexists s', _. rewrite Hrun. simpl in Ha, Hw, Ht, Hl. rewrite Ha, Hw, Ht, Hl.
        split_and!; try reflexivity; rewrite <- !app_assoc; reflexivity.
      * cbn [run]. rewrite (run_pluginAt i p) by exact Hp. run_act.
        match goal with |- context [run (stopLoop i ?m) ?s1] =>
          destruct (IH m s1) as (s' & lg & Hrun & Ha & Hw & Ht & Hl); [simpl; lia|] end.
        eexists s', _. rewrite Hrun. simpl in Ha, Hw, Ht, Hl. rewrite Ha, Hw, Ht, Hl.
        split_and!; try reflexivity; rewrite <- !app_assoc; reflexivity.
    + rewrite (run_safeclose_None p) by exact E. cbn [bind].
      rewrite (run_pluginAt i p) by exact Hp. run_act.
      match goal with |- context [run (stopLoop i ?m) ?s1] =>
        destruct (IH m s1) as (s' & lg & Hrun & Ha & Hw & Ht & Hl); [simpl; lia|] end.
      eexists s', _. rewrite Hrun. simpl in Ha, Hw, Ht, Hl. rewrite Ha, Hw, Ht, Hl.
      split_and!; try reflexivity. rewrite <- !app_assoc. reflexivity.
Qed.

Lemma evolves_refl (s : St) : evolves s s (world s) [] [] [] [].
Proof. unfold evolves. by rewrite !app_nil_r. Qed.

Lemma evolves_trans (s1 s2 s3 : St) (w2 w3 : W) (tr tr' : list Event)
  (lg lg' : list LogEntry) (i1 i1' i2 i2' : list ptr) :
  evolves s1 s2 w2 tr lg i1 i2 -> evolves s2 s3 w3 tr' lg' i1' i2' ->
  evolves s1 s3 w3 (tr ++ tr') (lg ++ lg') (i1 ++ i1') (i2 ++ i2').
Proof.
  intros (Hp & Hw & Ht & Hl & Hi & Ha) (Hp' & Hw' & Ht' & Hl' & Hi' & Ha').
  unfold evolves. rewrite Hp', Hp, Hw', Ht', Ht, Hl', Hl, Hi', Hi, Ha', Ha.
  by rewrite !app_assoc.
Qed.

Lemma Stop_run (s : St) :
  exists s' lg,
    run Stop s =
      (Returned (aggregate (failures (releases (reverse (plugins (agent s))) (world s)).1)), s')
    /\ evolves s s' (releases (reverse (plugins (agent s))) (world s)).2
         (releases (reverse (plugins (agent s))) (world s)).1 lg [] [].
Proof.
  unfold Stop. run_act. run_act.
  rewrite run_bind.
  match goal with |- context [run (stopLoop ?n ?e) ?s1] =>
    destruct (stopLoop_run n e s1) as (s' & lg & Hrun & Ha & Hw & Ht & Hl); [simpl; lia|] end.
  rewrite Hrun. run_act. revert Ha Hw Ht Hl. st_simpl. rewrite firstn_all.
  intros Ha Hw Ht Hl.
  eexists _, ([mkLog LInfo [] [VStr "Stopping agent..."]] ++ lg
                ++ [mkLog LDebug [] [VStr "Agent stopped"]]). split.
  - rewrite <- accumulate_failures.
    destruct (bool_decide _); reflexivity.
  - unfold evolves. st_simpl. rewrite Ha, Hw, Ht, Hl. st_simpl. rewrite !app_nil_r.
    split_and!; try reflexivity. rewrite <- !app_assoc. reflexivity.
Qed.

(** ** First phase *)

Lemma closeWarnings_app (t1 t2 : list Event) :
  closeWarnings (t1 ++ t2) = closeWarnings t1 ++ closeWarnings t2.
Proof. apply omap_app. Qed.

(** One round of the release loop of [initPlugins]. *)
Lemma rollback_step (j : nat) (p : ptr) (s : St) :
  plugins (agent s) !! j = Some p ->
  exists s1,
    run (rollback j) s =
      match j with
      | 0 => (Returned tt, s1)
      | S j' => run (rollback j') s1
      end
    /\ evolves s s1 (releases [p] (world s)).2 (releases [p] (world s)).1
         (closeWarnings (releases [p] (world s)).1) [] [].
Proof.
  intros Hp.
  assert (rollback j =
          (q <- pluginAt j ;;
           err <- safeclose_Close q ;;
           match err with
           | Some e =>
               q <- pluginAt j ;;
               log LWarn [] [VStr "err closing "; VStr (name_of q); VStr " "; VErr (Some e)]
           | None => Ret tt
           end ;;;
           match j with 0 => Ret tt | S j' => rollback j' end)) as -> by (by destruct j).
  rewrite (run_pluginAt j p) by exact Hp. cbn [releases].
  destruct (Close (Plugin_ (deref p))) as [f|] eqn:E.
  - rewrite (run_safeclose_Some p f) by exact E. st_simpl.
    destruct (f (world s)).1 as [e|] eqn:Ee.
    + rewrite run_bind, (run_pluginAt j p) by exact Hp.
      cbn [run log act]. st_simpl.
      eexists. split; [destruct j; reflexivity|].
      unfold evolves. st_simpl. rewrite !app_nil_r. split_and!; reflexivity.
    + cbn [bind]. eexists. split; [destruct j; reflexivity|].
      unfold evolves. st_simpl. rewrite !app_nil_r. split_and!; reflexivity.
  - rewrite (run_safeclose_None p) by exact E. cbn [bind].
    exists s. split; [destruct j; reflexivity|]. apply evolves_refl.
Qed.

Lemma rollback_run (j : nat) (s : St) :
  j < length (plugins (agent s)) ->
  exists s',
    run (rollback j) s = (Returned tt, s')
    /\ evolves s s'
         (releases (reverse (take (S j) (plugins (agent s)))) (world s)).2
         (releases (reverse (take (S j) (plugins (agent s)))) (world s)).1
         (closeWarnings (releases (reverse (take (S j) (plugins (agent s)))) (world s)).1)
         [] [].
Proof.
  revert s. induction j as [|j IH]; intros s Hj;
    destruct (lookup_lt_is_Some_2 (plugins (agent s)) _ Hj) as [p Hp];
    destruct (rollback_step _ p s Hp) as (s1 & Hrun & Hev);
    rewrite Hrun, (take_S_r _ _ _ Hp), reverse_snoc.
  - exists s1. split; [reflexivity|]. rewrite take_0. exact Hev.
  - pose proof Hev as (Hpl & Hw1 & _).
    destruct (IH s1) as (s' & Hrun' & Hev'); [rewrite Hpl; lia|].
    exists s'. split; [exact Hrun'|].
    rewrite Hpl, Hw1 in Hev'.
    change (p :: reverse (take (S j) (plugins (agent s))))
      with ([p] ++ reverse (take (S j) (plugins (agent s)))).
    rewrite releases_app. cbn [fst snd]. rewrite closeWarnings_app.
    apply (evolves_trans _ _ _ _ _ _ _ _ _ [] [] [] [] Hev Hev').
Qed.

Lemma initLoop_ok (t : Z) (rest : list ptr) (i : nat) (s : St) (w' : W) :
  initsSucceed rest (world s) = Some w' ->
  exists s',
    run (initLoop t i rest) s = (Returned None, s')
    /\ evolves s s' w' (initEvents rest) (initLogs rest) rest [].
Proof.
  revert i s. induction rest as [|p rest IH]; intros i s H.
  - exists s. inversion H; subst. split; [reflexivity|]. apply evolves_refl.
  - cbn [initsSucceed] in H. cbn [initLoop]. run_act. run_act.
    destruct (Init (Plugin_ (deref p)) (world s)).1 as [e|]; [discriminate|].
    run_act. run_act.
    match goal with |- context [run (initLoop t (S i) rest) ?s1] =>
      destruct (IH (S i) s1 H) as (s' & Hrun & Hev) end.
    exists s'. split; [exact Hrun|].
    destruct Hev as (Hp & Hw & Ht & Hl & Hi & Ha). revert Hp Hw Ht Hl Hi Ha.
    unfold evolves. st_simpl. intros -> -> -> -> -> ->.
    unfold initEvents, initLogs. rewrite bind_cons, fmap_cons.
    rewrite <- !app_assoc. split_and!; reflexivity.
Qed.

Lemma initLoop_fail (t : Z) (ok : list ptr) (i : nat) (done : list ptr) (p : ptr)
  (tl : list ptr) (s : St) (wk : W) (e : error) :
  plugins (agent s) = done ++ ok ++ p :: tl ->
  length done = i ->
  initsSucceed ok (world s) = Some wk ->
  (Init (Plugin_ (deref p)) wk).1 = Some e ->
  exists s',
    run (initLoop t i (ok ++ p :: tl)) s =
      (Returned
         (Some (logErrorFmt (name_of p) e
                  (Duration_sub
                     (now (releases (reverse (done ++ ok ++ [p]))
                             (Init (Plugin_ (deref p)) wk).2).2) t))),
       s')
    /\ evolves s s'
         (releases (reverse (done ++ ok ++ [p])) (Init (Plugin_ (deref p)) wk).2).2
         (initEvents ok ++ [EMark (initMark p); ECall MInit p (Some e)]
            ++ (releases (reverse (done ++ ok ++ [p])) (Init (Plugin_ (deref p)) wk).2).1)
         (initLogs ok
            ++ closeWarnings
                 (releases (reverse (done ++ ok ++ [p])) (Init (Plugin_ (deref p)) wk).2).1)
         ok [].
Proof.
  revert i done s. induction ok as [|q ok IH]; intros i done s Hpl Hlen Hok He.
  - inversion Hok; subst wk. subst i. cbn [app initLoop]. run_act. run_act. rewrite He.
    rewrite run_bind.
    match goal with |- context [run (rollback _) ?s1] =>
      destruct (rollback_run (length done) s1) as (s' & Hrun & Hev) end.
    { st_simpl. rewrite Hpl, length_app. simpl. lia. }
    rewrite Hrun. run_act. cbn [run].
    revert Hev. unfold evolves. st_simpl. intros (Hp & Hw & Ht & Hl & Hi & Ha).
    assert (take (S (length done)) (plugins (agent s)) = done ++ [p]) as Htk.
    { rewrite Hpl. change (done ++ [] ++ p :: tl) with (done ++ [p] ++ tl).
      rewrite app_assoc. apply take_app_length'. rewrite length_app. simpl. lia. }
    rewrite Htk in *. exists s'. rewrite Hw. split; [reflexivity|].
    rewrite Hp, Ht, Hl, Hi, Ha. rewrite <- !app_assoc, !app_nil_r.
    split_and!; reflexivity.
  - cbn [initsSucceed] in Hok. cbn [app initLoop]. run_act. run_act.
    destruct (Init (Plugin_ (deref q)) (world s)).1 as [e'|]; [discriminate|].
    run_act. run_act.
    match goal with |- context [run (initLoop t (S i) _) ?s1] =>
      destruct (IH (S i) (done ++ [q]) s1) as (s' & Hrun & Hev) end.
    { st_simpl. rewrite Hpl, <- app_assoc. reflexivity. }
    { rewrite length_app. simpl. lia. }
    { exact Hok. }
    { exact He. }
    revert Hrun Hev. rewrite <- !app_assoc. cbn [app]. intros Hrun Hev.
    exists s'. split; [exact Hrun|].
    destruct Hev as (Hp & Hw & Ht & Hl & Hi & Ha). revert Hp Hw Ht Hl Hi Ha.
    unfold evolves. st_simpl. intros -> -> -> -> -> ->.
    unfold initEvents, initLogs. rewrite bind_cons, fmap_cons.
    rewrite <- !app_assoc. split_and!; reflexivity.
Qed.

Lemma initPlugins_ok (s : St) (w' : W) :
  initsSucceed (plugins (agent s)) (world s) = Some w' ->
  exists s',
    run initPlugins s = (Returned None, s')
    /\ evolves s s' w' (initEvents (plugins (agent s))) (initLogs (plugins (agent s)))
         (plugins (agent s)) [].
Proof.
  intros H. unfold initPlugins. run_act. run_act. rewrite run_bind.
  destruct (initLoop_ok (now (world s)) (plugins (agent s)) 0 s w' H) as (s' & Hrun & Hev).
  rewrite Hrun. run_act. run_act. cbn [run].
  eexists. split; [reflexivity|].
  revert Hev. unfold evolves. st_simpl. intros Hev. exact Hev.
Qed.

Lemma initPlugins_fail (ok : list ptr) (p : ptr) (tl : list ptr) (s : St) (wk : W)
  (e : error) :
  plugins (agent s) = ok ++ p :: tl ->
  initsSucceed ok (world s) = Some wk ->
  (Init (Plugin_ (deref p)) wk).1 = Some e ->
  exists s',
    run initPlugins s =
      (Returned
         (Some (logErrorFmt (name_of p) e
                  (Duration_sub
                     (now (releases (reverse (ok ++ [p])) (Init (Plugin_ (deref p)) wk).2).2)
                     (now (world s))))),
       s')
    /\ evolves s s'
         (releases (reverse (ok ++ [p])) (Init (Plugin_ (deref p)) wk).2).2
         (initEvents ok ++ [EMark (initMark p); ECall MInit p (Some e)]
            ++ (releases (reverse (ok ++ [p])) (Init (Plugin_ (deref p)) wk).2).1)
         (initLogs ok
            ++ closeWarnings (releases (reverse (ok ++ [p])) (Init (Plugin_ (deref p)) wk).2).1)
         ok [].
Proof.
  intros Hpl Hok He. unfold initPlugins. run_act. run_act. rewrite run_bind.
  destruct (initLoop_fail (now (world s)) ok 0 [] p tl s wk e) as (s' & Hrun & Hev); auto.
  rewrite Hpl, Hrun. cbn [run]. exists s'. split; [reflexivity|exact Hev].
Qed.

(** ** Second phase *)

Lemma afterInitLoop_ok (t : Z) (rest : list ptr) (s : St) (w' : W) :
  afterInitsSucceed rest (world s) = Some w' ->
  exists s' lg,
    run (afterInitLoop t rest) s = (Returned None, s')
    /\ evolves s s' w' (afterInitEvents rest) lg [] (filter hasPostInit rest).
Proof.
  revert s. induction rest as [|p rest IH]; intros s H.
  - exists s, []. inversion H; subst. split; [reflexivity|]. apply evolves_refl.
  - cbn [afterInitsSucceed] in H. cbn [afterInitLoop]. run_act.
    unfold afterInitEvents. rewrite bind_cons. fold (afterInitEvents rest).
    unfold hasPostInit at 1.
    destruct (AfterInit (Plugin_ (deref p))) as [f|] eqn:E.
    + rewrite filter_cons_True by (unfold hasPostInit; by rewrite E).
      run_act. run_act.
      destruct (f (world s)).1 as [e|]; [discriminate|].
      run_act. run_act.
      match goal with |- context [run (afterInitLoop t rest) ?s1] =>
        destruct (IH s1 H) as (s' & lg & Hrun & Hev) end.
      exists s'. eexists. split; [exact Hrun|].
      destruct Hev as (Hp & Hw & Ht & Hl & Hi & Ha). revert Hp Hw Ht Hl Hi Ha.
      unfold evolves. st_simpl. intros -> -> -> -> -> ->.
      rewrite <- !app_assoc. split_and!; reflexivity.
    + rewrite filter_cons_False by (unfold hasPostInit; rewrite E; simpl; intros []).
      match goal with |- context [run (afterInitLoop t rest) ?s1] =>
        destruct (IH s1 H) as (s' & lg & Hrun & Hev) end.
      exists s', lg. split; [exact Hrun|].
      destruct Hev as (Hp & Hw & Ht & Hl & Hi & Ha). revert Hp Hw Ht Hl Hi Ha.
      unfold evolves. st_simpl. intros -> -> -> -> -> ->.
      rewrite <- !app_assoc. split_and!; reflexivity.
Qed.

Lemma afterInitLoop_fail (t : Z) (ok : list ptr) (p : ptr) (tl : list ptr) (s : St)
  (wk : W) (f : W -> option error * W) (e : error) :
  AfterInit (Plugin_ (deref p)) = Some f ->
  afterInitsSucceed ok (world s) = Some wk ->
  (f wk).1 = Some e ->
  exists s' lg,
    run (afterInitLoop t (ok ++ p :: tl)) s =
      (Returned
         (Some (logPostErrorFmt (name_of p) e
                  (Duration_sub
                     (now (releases (reverse (plugins (agent s))) (f wk).2).2) t))),
       s')
    /\ evolves s s'
         (releases (reverse (plugins (agent s))) (f wk).2).2
         (afterInitEvents ok ++ [EMark (afterInitMark p); ECall MAfterInit p (Some e)]
            ++ (releases (reverse (plugins (agent s))) (f wk).2).1)
         lg [] (filter hasPostInit ok).
Proof.
  intros Ef. revert s. induction ok as [|q ok IH]; intros s Hok He.
  - inversion Hok; subst wk. cbn [app afterInitLoop]. run_act. rewrite Ef.
    run_act. run_act. rewrite He. rewrite run_bind.
    match goal with |- context [run Stop ?s1] =>
      destruct (Stop_run s1) as (s' & lg & Hrun & Hev) end.
    rewrite Hrun. run_act. cbn [run].
    revert Hev. unfold evolves. st_simpl. intros (Hp & Hw & Ht & Hl & Hi & Ha).
    exists s', ([mkLog LDebug [] [VStr "afterInit begin for "; VStr (name_of p)]] ++ lg).
    rewrite Hw. split; [reflexivity|].
    rewrite Hp, Ht, Hl, Hi, Ha. rewrite <- !app_assoc, !app_nil_r.
    split_and!; reflexivity.
  - cbn [afterInitsSucceed] in Hok. cbn [app afterInitLoop]. run_act.
    unfold afterInitEvents. rewrite bind_cons. fold (afterInitEvents ok).
    unfold hasPostInit at 1.
    destruct (AfterInit (Plugin_ (deref q))) as [g|] eqn:E.
    + rewrite filter_cons_True by (unfold hasPostInit; by rewrite E).
      run_act. run_act.
      destruct (g (world s)).1 as [e'|]; [discriminate|].
      run_act. run_act.
      match goal with |- context [run (afterInitLoop t _) ?s1] =>
        destruct (IH s1 Hok He) as (s' & lg & Hrun & Hev) end.
      exists s'. eexists. split; [exact Hrun|].
      destruct Hev as (Hp & Hw & Ht & Hl & Hi & Ha). revert Hp Hw Ht Hl Hi Ha.
      unfold evolves. st_simpl. intros -> -> -> -> -> ->.
      rewrite <- !app_assoc. split_and!; reflexivity.
    + rewrite filter_cons_False by (unfold hasPostInit; rewrite E; simpl; intros []).
      match goal with |- context [run (afterInitLoop t _) ?s1] =>
        destruct (IH s1 Hok He) as (s' & lg & Hrun & Hev) end.
      exists s', lg. split; [exact Hrun|].
      destruct Hev as (Hp & Hw & Ht & Hl & Hi & Ha). revert Hp Hw Ht Hl Hi Ha.
      unfold evolves. st_simpl. intros -> -> -> -> -> ->.
      rewrite <- !app_assoc. split_and!; reflexivity.
Qed.

Lemma handleAfterInit_ok (s : St) (w' : W) :
  afterInitsSucceed (plugins (agent s)) (world s) = Some w' ->
  exists s' lg,
    run handleAfterInit s = (Returned None, s')
    /\ evolves s s' w' (afterInitEvents (plugins (agent s))) lg []
         (filter hasPostInit (plugins (agent s))).
Proof.
  intros H. unfold handleAfterInit. run_act. run_act. rewrite run_bind.
  destruct (afterInitLoop_ok (now (world s)) (plugins (agent s)) s w' H)
    as (s' & lg & Hrun & Hev).
  rewrite Hrun. run_act. run_act. cbn [run].
  eexists. exists lg. split; [reflexivity|].
  revert Hev. unfold evolves. st_simpl. intros Hev. exact Hev.
Qed.

Lemma handleAfterInit_fail (ok : list ptr) (p : ptr) (tl : list ptr) (s : St)
  (wk : W) (f : W -> option error * W) (e : error) :
  plugins (agent s) = ok ++ p :: tl ->
  AfterInit (Plugin_ (deref p)) = Some f ->
  afterInitsSucceed ok (world s) = Some wk ->
  (f wk).1 = Some e ->
  exists s' lg,
    run handleAfterInit s =
      (Returned
         (Some (logPostErrorFmt (name_of p) e
                  (Duration_sub
                     (now (releases (reverse (plugins (agent s))) (f wk).2).2)
                     (now (world s))))),
       s')
    /\ evolves s s'
         (releases (reverse (plugins (agent s))) (f wk).2).2
         (afterInitEvents ok ++ [EMark (afterInitMark p); ECall MAfterInit p (Some e)]
            ++ (releases (reverse (plugins (agent s))) (f wk).2).1)
         lg [] (filter hasPostInit ok).
Proof.
  intros Hpl Ef Hok He. unfold handleAfterInit. run_act. run_act. rewrite run_bind.
  destruct (afterInitLoop_fail (now (world s)) ok p tl s wk f e Ef Hok He)
    as (s' & lg & Hrun & Hev).
  rewrite <- Hpl in Hrun. rewrite Hrun. cbn [run].
  exists s', lg. split; [reflexivity|exact Hev].
Qed.

(** ** The whole startup *)

Lemma startupUnit_init_fail (s : St) (r : error) (s' : St) :
  run initPlugins s = (Returned (Some r), s') ->
  run startupUnit s = (Returned (Some r), s').
Proof. intros H. unfold startupUnit. rewrite run_bind, H. reflexivity. Qed.

Lemma startupUnit_init_ok (s s1 : St) :
  run initPlugins s = (Returned None, s1) ->
  run startupUnit s = run handleAfterInit s1.
Proof.
  intros H. unfold startupUnit. rewrite run_bind, H, run_bind.
  destruct (run handleAfterInit s1) as [[[e|]|] s2]; reflexivity.
Qed.

(** The goroutine is done before the timer fires: the caller receives
    what it sends. *)
Lemma Start_finished (expiry : nat) (s : St) :
  steps startupUnit (startReport s) <= expiry ->
  Start expiry s =
  match run startupUnit (startReport s) with
  | (Returned (Some err), s1) => (Returned (Some err), failureReport s1)
  | (Returned None, s1) => (Returned None, successReport s1)
  | (Panicked, s1) => (Panicked, s1)
  end.
Proof.
  intros H. unfold Start. rewrite (runN_finished _ _ _ H).
  destruct (run startupUnit (startReport s)) as [[[e|]|] s1]; reflexivity.
Qed.

(** The timer fires first: the caller reports the marker as it is then. *)
Lemma Start_expired (expiry : nat) (s : St) :
  expiry < steps startupUnit (startReport s) ->
  Start expiry s =
  (Returned
     (Some (logTimeoutFmt
              (currentlyProcessing
                 (startup_ (agent (runN expiry startupUnit (startReport s)).2))))),
   failureReport (runN expiry startupUnit (startReport s)).2).
Proof.
  intros H. unfold Start.
  destruct (runN_unfinished _ _ _ H) as (X & g & k & Hg).
  destruct (runN expiry startupUnit (startReport s)) as [m s1]. simpl in Hg. subst m.
  reflexivity.
Qed.

Lemma calls_initEvents (l : list ptr) :
  calls (initEvents l) = (fun q => (MInit, q)) <$> l.
Proof.
  induction l as [|p l IH]; [reflexivity|].
  unfold initEvents. rewrite bind_cons. fold (initEvents l).
  rewrite calls_app, IH. reflexivity.
Qed.

Lemma calls_afterInitEvents (l : list ptr) :
  calls (afterInitEvents l) = (fun q => (MAfterInit, q)) <$> filter hasPostInit l.
Proof.
  induction l as [|p l IH]; [reflexivity|].
  unfold afterInitEvents. rewrite bind_cons. fold (afterInitEvents l).
  rewrite calls_app, IH.
  destruct (hasPostInit p) eqn:E.
  - rewrite filter_cons_True by (by rewrite E). reflexivity.
  - rewrite filter_cons_False by (rewrite E; simpl; intros []). reflexivity.
Qed.

Lemma releases_world (l : list ptr) (w : W) : (releases l w).2 = releasedWorld l w.
Proof.
  revert w. induction l as [|p l IH]; intros w; [reflexivity|]. simpl.
  destruct (Close (Plugin_ (deref p))) as [f|]; simpl; apply IH.
Qed.

(** A list up to and including its element at index [k]. *)
Lemma take_split (l : list ptr) (k : nat) (p : ptr) :
  l !! k = Some p -> l = take k l ++ p :: drop (S k) l.
Proof.
  intros H. rewrite <- (take_drop k l) at 1. f_equal. by apply drop_S.
Qed.

Lemma found_in_elem_of (plugin : ptr) (initialized : list ptr) :
  found_in plugin initialized = bool_decide (plugin ∈ initialized).
Proof.
  unfold found_in.
  assert (forall b, fold_left (fun found i => if bool_decide (plugin = i) then true else found)
                      initialized b = b || bool_decide (plugin ∈ initialized)) as H.
  { induction initialized as [|x l IH]; intros b.
    - rewrite bool_decide_false by apply not_elem_of_nil. by rewrite orb_false_r.
    - cbn [fold_left]. rewrite IH. destruct (decide (plugin = x)) as [->|Hne].
      + rewrite (bool_decide_true (x = x)) by done.
        rewrite (bool_decide_true (x ∈ x :: l)) by left. by rewrite orb_true_r.
      + rewrite (bool_decide_false (plugin = x)) by done. f_equal.
        apply bool_decide_ext. rewrite elem_of_cons.
        split; [by right|by intros [?|?]]. }
  apply H.
Qed.

Lemma calculateDiff_filter (a : Agent) (initialized : list ptr) :
  calculateDiff a initialized = filter (fun q => q ∉ initialized) (plugins a).
Proof.
  unfold calculateDiff.
  assert (forall l acc,
             fold_left (fun diff plugin =>
                          if found_in plugin initialized then diff else diff ++ [plugin])
               l acc = acc ++ filter (fun q => q ∉ initialized) l) as H.
  { induction l as [|x l IH]; intros acc.
    - by rewrite app_nil_r.
    - cbn [fold_left]. rewrite IH, found_in_elem_of.
      destruct (decide (x ∈ initialized)) as [Hin|Hnin].
      + rewrite bool_decide_true by done.
        by rewrite filter_cons_False by (intros Hx; by apply Hx).
      + rewrite bool_decide_false by done. rewrite filter_cons_True by done.
        by rewrite <- app_assoc. }
  apply H.
Qed.

Lemma filter_ext_elem_of (P1 P2 : ptr -> Prop)
  `{!forall x, Decision (P1 x), !forall x, Decision (P2 x)} (l : list ptr) :
  (forall x, x ∈ l -> P1 x <-> P2 x) -> filter P1 l = filter P2 l.
Proof.
  induction l as [|a l IH]; intros Hext; [reflexivity|].
  assert (filter P1 l = filter P2 l) as Hl by (apply IH; intros x Hx; apply Hext; by right).
  destruct (decide (P1 a)) as [Ha|Ha].
  - rewrite !filter_cons_True; [by rewrite Hl|apply Hext; [left|done]|done].
  - rewrite !filter_cons_False; [done| |done].
    intros Ha'. apply Ha, Hext; [left|done].
Qed.

(** A sublist of a list without duplicates is what membership in it
    selects from the list. *)
Lemma sublist_filter_elem_of (l1 l2 : list ptr) :
  l1 `sublist_of` l2 -> NoDup l2 -> filter (fun q => q ∈ l1) l2 = l1.
Proof.
  induction 1 as [|x l1 l2 Hsub IH|x l1 l2 Hsub IH]; intros Hnd.
  - reflexivity.
  - apply NoDup_cons in Hnd as [Hx Hnd].
    rewrite filter_cons_True by left. f_equal.
    transitivity (filter (fun q => q ∈ l1) l2); [|by apply IH].
    apply filter_ext_elem_of.
    intros q Hq. rewrite elem_of_cons. split; [|by right].
    intros [->|?]; [done|done].
  - apply NoDup_cons in Hnd as [Hx Hnd].
    rewrite filter_cons_False; [by apply IH|].
    intros Hin. apply Hx. by eapply elem_of_sublist.
Qed.

(** ** States passed through *)

Lemma stepwise_bind {A B : Type} (R : St -> St -> Prop) (m : Prog A) (f : A -> Prog B) :
  stepwise R m -> (forall a, stepwise R (f a)) -> stepwise R (bind m f).
Proof.
  intros Hm Hf. induction m as [a| |X g k IH]; simpl; auto.
  destruct Hm as [Hg Hk]. split; [exact Hg|]. intros x. apply IH, Hk.
Qed.

Lemma stepwise_act {X : Type} (R : St -> St -> Prop) (f : St -> X * St) :
  (forall s, R s (f s).2) -> stepwise R (act f).
Proof. intros H. simpl. auto. Qed.

Lemma stepwise_weaken {A : Type} (R R' : St -> St -> Prop) (m : Prog A) :
  (forall s s', R s s' -> R' s s') -> stepwise R m -> stepwise R' m.
Proof.
  intros HR. induction m as [a| |X g k IH]; simpl; auto.
  intros [Hg Hk]. split; [auto|]. intros x. apply IH, Hk.
Qed.

Lemma stepwise_runN {A : Type} (R : St -> St -> Prop) `{!PreOrder R}
  (n : nat) (m : Prog A) (s : St) :
  stepwise R m -> R s (runN n m s).2 /\ stepwise R (runN n m s).1.
Proof.
  revert m s. induction n as [|n IH]; intros m s Hm.
  - destruct m; simpl; split; (reflexivity || exact Hm).
  - destruct m as [a| |X g k]; simpl; try (split; [reflexivity|exact Hm]).
    destruct Hm as [Hg Hk]. destruct (IH (k (g s).1) (g s).2 (Hk _)) as [HR Hs].
    split; [|exact Hs]. etransitivity; [apply Hg|exact HR].
Qed.

Lemma stepwise_run {A : Type} (R : St -> St -> Prop) `{!PreOrder R}
  (m : Prog A) (s : St) :
  stepwise R m -> R s (run m s).2.
Proof.
  revert s. induction m as [a| |X g k IH]; intros s Hm; simpl; try reflexivity.
  destruct Hm as [Hg Hk]. etransitivity; [apply Hg|apply IH, Hk].
Qed.

(** Every state passed through is related to the state the run ends in. *)
Lemma stepwise_snapshot {A : Type} (R : St -> St -> Prop) `{!PreOrder R}
  (n : nat) (m : Prog A) (s : St) :
  stepwise R m -> R (runN n m s).2 (run m s).2.
Proof.
  intros Hm. rewrite <- (run_resume n m s).
  apply stepwise_run; [done|]. by apply stepwise_runN.
Qed.

(** A state passed through by [bind m f] is passed through by [m], or by
    [f a] after [m] has returned [a]. *)
Lemma snapshot_bind {A B : Type} (n : nat) (m : Prog A) (f : A -> Prog B) (s : St) :
  (exists n', (runN n (bind m f) s).2 = (runN n' m s).2)
  \/ (exists a s' n', run m s = (Returned a, s') /\ runN n (bind m f) s = runN n' (f a) s').
Proof.
  revert n s. induction m as [a| |X g k IH]; intros n s.
  - right. exists a, s, n. auto.
  - left. exists 0. destruct n; reflexivity.
  - destruct n as [|n]; [left; by exists 0|].
    simpl. destruct (IH (g s).1 n (g s).2) as [[n' H]|(a & s' & n' & Hrun & H)].
    + left. exists (S n'). exact H.
    + right. exists a, s', n'. auto.
Qed.

Global Instance extends_preorder : PreOrder extends.
Proof.
  split.
  - intros s. unfold extends. auto.
  - intros s1 s2 s3 (Hp & Ht & Hi & Ha & Hm) (Hp' & Ht' & Hi' & Ha' & Hm').
    unfold extends. split_and!; [congruence|by etransitivity..|auto].
Qed.

Global Instance keeps_afterInitSuccess_preorder : PreOrder keeps_afterInitSuccess.
Proof. split; unfold keeps_afterInitSuccess; [by intros ?|intros ???; congruence]. Qed.

Global Instance keeps_initSuccess_preorder : PreOrder keeps_initSuccess.
Proof. split; unfold keeps_initSuccess; [by intros ?|intros ???; congruence]. Qed.

Global Instance steady_preorder : PreOrder steady.
Proof.
  split.
  - intros s. split_and!; reflexivity.
  - intros s1 s2 s3 (H1 & H2 & H3) (H1' & H2' & H3').
    split_and!; etransitivity; eauto.
Qed.

Global Instance phase1_preorder : PreOrder phase1.
Proof.
  split.
  - intros s. split; reflexivity.
  - intros s1 s2 s3 (H1 & H2) (H1' & H2'). split; etransitivity; eauto.
Qed.

Global Instance phase2_preorder : PreOrder phase2.
Proof.
  split.
  - intros s. split; reflexivity.
  - intros s1 s2 s3 (H1 & H2) (H1' & H2'). split; etransitivity; eauto.
Qed.

Lemma steady_phase1 (s s' : St) : steady s s' -> phase1 s s'.
Proof. intros (H1 & H2 & H3). by split. Qed.

Lemma steady_phase2 (s s' : St) : steady s s' -> phase2 s s'.
Proof. intros (H1 & H2 & H3). by split. Qed.

(** An action that keeps the Agent and appends plugin calls to the trace. *)
Lemma extends_calls (s s' : St) (tr : list Event) :
  agent s' = agent s -> trace s' = trace s ++ tr -> marks tr = [] -> extends s s'.
Proof.
  intros Ha Ht Hm. unfold extends, marker_is_last_mark.
  rewrite Ha, Ht, marks_app, Hm, app_nil_r.
  split_and!; auto. by apply prefix_app_r.
Qed.

Lemma steady_calls (s s' : St) (tr : list Event) :
  agent s' = agent s -> trace s' = trace s ++ tr -> marks tr = [] -> steady s s'.
Proof.
  intros Ha Ht Hm. split_and!; [by eapply extends_calls| |].
  - unfold keeps_afterInitSuccess. by rewrite Ha.
  - unfold keeps_initSuccess. by rewrite Ha.
Qed.

Lemma steady_same (s s' : St) :
  agent s' = agent s -> trace s' = trace s -> steady s s'.
Proof. intros Ha Ht. apply (steady_calls s s' []); auto. by rewrite app_nil_r. Qed.

Lemma steady_mark (m : string) (s : St) :
  steady s (emit (EMark m) (set_agent (with_currentlyProcessing m) s)).
Proof.
  unfold steady, extends, keeps_afterInitSuccess, keeps_initSuccess, marker_is_last_mark.
  st_simpl. split_and!; auto; [by apply prefix_app_r|].
  intros _. rewrite marks_app. change (marks [EMark m]) with [m]. by rewrite last_snoc.
Qed.

Lemma steady_duration (f : Agent -> Agent) (s : St) :
  plugins (f (agent s)) = plugins (agent s) ->
  initSuccess (startup_ (f (agent s))) = initSuccess (startup_ (agent s)) ->
  afterInitSuccess (startup_ (f (agent s))) = afterInitSuccess (startup_ (agent s)) ->
  currentlyProcessing (startup_ (f (agent s))) = currentlyProcessing (startup_ (agent s)) ->
  steady s (set_agent f s).
Proof.
  intros Hp Hi Ha Hm.
  unfold steady, extends, keeps_afterInitSuccess, keeps_initSuccess, marker_is_last_mark.
  st_simpl. rewrite Hp, Hi, Ha, Hm. split_and!; auto.
Qed.

(** Solve the obligation of one atomic action. *)
Ltac steady_act :=
  intros ?;
  first
    [ apply steady_mark
    | apply steady_same; reflexivity
    | eapply steady_calls; [reflexivity|reflexivity|reflexivity]
    | apply steady_duration; reflexivity ].

Lemma stepwise_pluginAt (i : nat) : stepwise steady (pluginAt i).
Proof.
  unfold pluginAt. apply stepwise_bind; [apply stepwise_act; steady_act|].
  intros a. destruct (plugins a !! i); exact I.
Qed.

Lemma stepwise_log (l : Level) (fs : list (string * LogVal)) (xs : list LogVal) :
  stepwise steady (log l fs xs).
Proof. apply stepwise_act. steady_act. Qed.

Lemma stepwise_safeclose_Close (p : ptr) : stepwise steady (safeclose_Close p).
Proof.
  apply stepwise_act. intros s. destruct (Close (Plugin_ (deref p))) as [f|].
  - eapply steady_calls; reflexivity.
  - by apply steady_same.
Qed.

Lemma stepwise_stopLoop (n : nat) (errMsg : string) : stepwise steady (stopLoop n errMsg).
Proof.
  revert errMsg. induction n as [|i IH]; intros errMsg; [exact I|].
  cbn [stopLoop].
  apply stepwise_bind; [apply stepwise_pluginAt|intros p].
  apply stepwise_bind; [apply stepwise_log|intros _].
  apply stepwise_bind; [apply stepwise_pluginAt|intros p'].
  apply stepwise_bind; [apply stepwise_safeclose_Close|intros err].
  apply stepwise_bind.
  { destruct err; [|exact I].
    apply stepwise_bind; [apply stepwise_pluginAt|intros q]. exact I. }
  intros errMsg'.
  apply stepwise_bind; [apply stepwise_pluginAt|intros q].
  apply stepwise_bind; [apply stepwise_log|intros _].
  apply IH.
Qed.

Lemma stepwise_Stop : stepwise steady Stop.
Proof.
  unfold Stop.
  apply stepwise_bind; [apply stepwise_log|intros _].
  apply stepwise_bind; [apply stepwise_act; steady_act|intros a].
  apply stepwise_bind; [apply stepwise_stopLoop|intros errMsg].
  apply stepwise_bind; [apply stepwise_log|intros _].
  destruct (bool_decide _); exact I.
Qed.

Lemma stepwise_rollback (j : nat) : stepwise steady (rollback j).
Proof.
  induction j as [|j IH]; cbn [rollback].
  all: apply stepwise_bind; [apply stepwise_pluginAt|intros p].
  all: apply stepwise_bind; [apply stepwise_safeclose_Close|intros err].
  all: apply stepwise_bind; [|intros _; first [exact I|exact IH]].
  all: destruct err; [|exact I].
  all: apply stepwise_bind; [apply stepwise_pluginAt|intros q]; apply stepwise_log.
Qed.

Lemma stepwise_phase1 {A : Type} (m : Prog A) : stepwise steady m -> stepwise phase1 m.
Proof. apply stepwise_weaken, steady_phase1. Qed.

Lemma stepwise_phase2 {A : Type} (m : Prog A) : stepwise steady m -> stepwise phase2 m.
Proof. apply stepwise_weaken, steady_phase2. Qed.

Lemma stepwise_steady_act {X : Type} (f : St -> X * St) :
  (forall s, steady s (f s).2) -> stepwise steady (act f).
Proof. apply stepwise_act. Qed.

Lemma phase1_appendInitSuccess (p : ptr) (s : St) :
  phase1 s (set_agent (fun a => with_initSuccess (initSuccess (startup_ a) ++ [p]) a) s).
Proof.
  unfold phase1, extends, keeps_afterInitSuccess, marker_is_last_mark. st_simpl.
  split_and!; auto. by apply prefix_app_r.
Qed.

Lemma phase2_appendAfterInitSuccess (p : ptr) (s : St) :
  phase2 s
    (set_agent (fun a => with_afterInitSuccess (afterInitSuccess (startup_ a) ++ [p]) a) s).
Proof.
  unfold phase2, extends, keeps_initSuccess, marker_is_last_mark. st_simpl.
  split_and!; auto. by apply prefix_app_r.
Qed.

Lemma stepwise_initLoop (t : Z) (i : nat) (rest : list ptr) :
  stepwise phase1 (initLoop t i rest).
Proof.
  revert i. induction rest as [|p rest IH]; intros i; [exact I|].
  cbn [initLoop].
  apply stepwise_bind; [apply stepwise_phase1, stepwise_steady_act; steady_act|intros _].
  apply stepwise_bind; [apply stepwise_phase1, stepwise_steady_act; steady_act|intros err].
  destruct err as [e|].
  - apply stepwise_bind; [apply stepwise_phase1, stepwise_rollback|intros _].
    apply stepwise_bind; [apply stepwise_phase1, stepwise_steady_act; steady_act|intros d].
    exact I.
  - apply stepwise_bind; [apply stepwise_phase1, stepwise_log|intros _].
    apply stepwise_bind; [apply stepwise_act, phase1_appendInitSuccess|intros _].
    apply IH.
Qed.

Lemma stepwise_initPlugins : stepwise phase1 initPlugins.
Proof.
  unfold initPlugins.
  apply stepwise_bind; [apply stepwise_phase1, stepwise_steady_act; steady_act|intros t].
  apply stepwise_bind; [apply stepwise_phase1, stepwise_steady_act; steady_act|intros a].
  apply stepwise_bind; [apply stepwise_initLoop|intros r].
  destruct r as [e|]; [exact I|].
  apply stepwise_bind; [apply stepwise_phase1, stepwise_steady_act; steady_act|intros d].
  apply stepwise_bind; [apply stepwise_phase1, stepwise_steady_act; steady_act|intros _].
  exact I.
Qed.

Lemma stepwise_afterInitLoop (t : Z) (rest : list ptr) :
  stepwise phase2 (afterInitLoop t rest).
Proof.
  induction rest as [|p rest IH]; [exact I|].
  cbn [afterInitLoop].
  apply stepwise_bind; [apply stepwise_phase2, stepwise_steady_act; steady_act|intros _].
  destruct (AfterInit (Plugin_ (deref p))) as [f|]; [|exact IH].
  apply stepwise_bind; [apply stepwise_phase2, stepwise_log|intros _].
  apply stepwise_bind; [apply stepwise_phase2, stepwise_steady_act; steady_act|intros err].
  destruct err as [e|].
  - apply stepwise_bind; [apply stepwise_phase2, stepwise_Stop|intros _].
    apply stepwise_bind; [apply stepwise_phase2, stepwise_steady_act; steady_act|intros d].
    exact I.
  - apply stepwise_bind; [apply stepwise_phase2, stepwise_log|intros _].
    apply stepwise_bind; [apply stepwise_act, phase2_appendAfterInitSuccess|intros _].
    apply IH.
Qed.

Lemma stepwise_handleAfterInit : stepwise phase2 handleAfterInit.
Proof.
  unfold handleAfterInit.
  apply stepwise_bind; [apply stepwise_phase2, stepwise_steady_act; steady_act|intros t].
  apply stepwise_bind; [apply stepwise_phase2, stepwise_steady_act; steady_act|intros a].
  apply stepwise_bind; [apply stepwise_afterInitLoop|intros r].
  destruct r as [e|]; [exact I|].
  apply stepwise_bind; [apply stepwise_phase2, stepwise_steady_act; steady_act|intros d].
  apply stepwise_bind; [apply stepwise_phase2, stepwise_steady_act; steady_act|intros _].
  exact I.
Qed.

Lemma stepwise_startupUnit : stepwise extends startupUnit.
Proof.
  unfold startupUnit.
  apply stepwise_bind.
  { eapply stepwise_weaken; [|apply stepwise_initPlugins]. by intros s s' [H _]. }
  intros [e|]; [exact I|].
  apply stepwise_bind.
  { eapply stepwise_weaken; [|apply stepwise_handleAfterInit]. by intros s s' [H _]. }
  intros [e|]; exact I.
Qed.

(** ** The three ways a startup ends *)

Lemma initsSucceed_cases (l : list ptr) (w : W) :
  (exists w', initsSucceed l w = Some w')
  \/ (exists k p wk e,
        l !! k = Some p
        /\ initsSucceed (take k l) w = Some wk
        /\ (Init (Plugin_ (deref p)) wk).1 = Some e).
Proof.
  revert w. induction l as [|q l IH]; intros w; [left; by exists w|].
  cbn [initsSucceed].
  destruct (Init (Plugin_ (deref q)) w).1 as [e|] eqn:E.
  - right. exists 0, q, w, e. auto.
  - destruct (IH (Init (Plugin_ (deref q)) w).2) as [[w' H]|(k & p & wk & e & Hk & Hok & He)].
    + left. by exists w'.
    + right. exists (S k), p, wk, e. split_and!; [exact Hk| |exact He].
      cbn [take initsSucceed]. by rewrite E.
Qed.

Lemma afterInitsSucceed_cases (l : list ptr) (w : W) :
  (exists w', afterInitsSucceed l w = Some w')
  \/ (exists k p f wk e,
        l !! k = Some p
        /\ AfterInit (Plugin_ (deref p)) = Some f
        /\ afterInitsSucceed (take k l) w = Some wk
        /\ (f wk).1 = Some e).
Proof.
  revert w. induction l as [|q l IH]; intros w; [left; by exists w|].
  cbn [afterInitsSucceed].
  destruct (AfterInit (Plugin_ (deref q))) as [g|] eqn:Eg.
  - destruct (g w).1 as [e|] eqn:E.
    + right. exists 0, q, g, w, e. auto.
    + destruct (IH (g w).2) as [[w' H]|(k & p & f & wk & e & Hk & Hf & Hok & He)].
      * left. by exists w'.
      * right. exists (S k), p, f, wk, e. split_and!; [exact Hk|exact Hf| |exact He].
        cbn [take afterInitsSucceed]. by rewrite Eg, E.
  - destruct (IH w) as [[w' H]|(k & p & f & wk & e & Hk & Hf & Hok & He)].
    + left. by exists w'.
    + right. exists (S k), p, f, wk, e. split_and!; [exact Hk|exact Hf| |exact He].
      cbn [take afterInitsSucceed]. by rewrite Eg.
Qed.

Lemma marks_initEvents (l : list ptr) : marks (initEvents l) = initMark <$> l.
Proof.
  induction l as [|p l IH]; [reflexivity|].
  unfold initEvents. rewrite bind_cons. fold (initEvents l).
  rewrite marks_app, IH. reflexivity.
Qed.

Lemma marks_afterInitEvents (l : list ptr) :
  marks (afterInitEvents l) = afterInitMark <$> l.
Proof.
  induction l as [|p l IH]; [reflexivity|].
  unfold afterInitEvents. rewrite bind_cons. fold (afterInitEvents l).
  rewrite marks_app, IH. by destruct (hasPostInit p).
Qed.

Lemma initEvents_snoc (l : list ptr) (p : ptr) :
  initEvents (l ++ [p]) = (initEvents l ++ [EMark (initMark p)]) ++ [ECall MInit p None].
Proof.
  unfold initEvents. rewrite bind_app. cbn [mbind list_bind]. rewrite app_nil_r.
  by rewrite <- app_assoc.
Qed.

Lemma afterInitEvents_snoc (l : list ptr) (p : ptr) :
  afterInitEvents (l ++ [p]) =
  (afterInitEvents l ++ [EMark (afterInitMark p)])
    ++ (if hasPostInit p then [ECall MAfterInit p None] else []).
Proof.
  unfold afterInitEvents. rewrite bind_app. cbn [mbind list_bind]. rewrite app_nil_r.
  by rewrite <- app_assoc.
Qed.

Lemma announced_nil : announced [].
Proof. intros t1 m q r t2 H. by destruct t1. Qed.

Lemma announced_snoc (tr : list Event) (e : Event) :
  announced tr ->
  match e with
  | ECall MInit q _ => last tr = Some (EMark (initMark q))
  | ECall MAfterInit q _ => last tr = Some (EMark (afterInitMark q))
  | _ => True
  end ->
  announced (tr ++ [e]).
Proof.
  intros Htr He t1 m q r t2 Heq.
  destruct t2 as [|x t2 _] using rev_ind.
  - apply app_inj_tail in Heq as [-> ->]. by destruct m.
  - rewrite app_comm_cons, app_assoc in Heq. apply app_inj_tail in Heq as [-> _].
    by apply (Htr t1 m q r t2).
Qed.

Lemma announced_prefix (tr tr' : list Event) :
  tr `prefix_of` tr' -> announced tr' -> announced tr.
Proof.
  intros [x ->] H t1 m q r t2 Heq. apply (H t1 m q r (t2 ++ x)).
  rewrite Heq. by rewrite <- app_assoc.
Qed.

Lemma announced_releases (tr : list Event) (l : list ptr) (w : W) :
  announced tr -> announced (tr ++ (releases l w).1).
Proof.
  revert tr w. induction l as [|p l IH]; intros tr w H.
  - by rewrite app_nil_r.
  - cbn [releases]. destruct (Close (Plugin_ (deref p))) as [f|]; cbn [fst].
    + rewrite cons_middle, app_assoc. apply IH. by apply announced_snoc.
    + by apply IH.
Qed.

Lemma announced_initEvents (l : list ptr) : announced (initEvents l).
Proof.
  induction l as [|p l IH] using rev_ind; [apply announced_nil|].
  rewrite initEvents_snoc. apply announced_snoc.
  - by apply announced_snoc.
  - by rewrite last_snoc.
Qed.

Lemma announced_afterInitEvents (tr : list Event) (l : list ptr) :
  announced tr -> announced (tr ++ afterInitEvents l).
Proof.
  intros H. induction l as [|p l IH] using rev_ind; [by rewrite app_nil_r|].
  rewrite afterInitEvents_snoc, !app_assoc.
  destruct (hasPostInit p).
  - apply announced_snoc; [by apply announced_snoc|]. by rewrite last_snoc.
  - rewrite app_nil_r. by apply announced_snoc.
Qed.

Lemma capable_initEvents (l : list ptr) : Forall capable (initEvents l).
Proof.
  induction l as [|p l IH]; [constructor|].
  unfold initEvents. rewrite bind_cons. fold (initEvents l).
  repeat constructor. exact IH.
Qed.

Lemma capable_afterInitEvents (l : list ptr) : Forall capable (afterInitEvents l).
Proof.
  induction l as [|p l IH]; [constructor|].
  unfold afterInitEvents. rewrite bind_cons. fold (afterInitEvents l).
  constructor; [exact I|]. destruct (hasPostInit p) eqn:E; [|exact IH].
  constructor; [|exact IH]. simpl. by rewrite E.
Qed.

Lemma capable_releases (l : list ptr) (w : W) : Forall capable (releases l w).1.
Proof.
  revert w. induction l as [|p l IH]; intros w; [constructor|].
  cbn [releases]. destruct (Close (Plugin_ (deref p))) as [f|]; cbn [fst]; [|apply IH].
  constructor; [exact I|apply IH].
Qed.

(** The startup does not panic and ends in one of the three ways. *)
Lemma startupUnit_ending (s : St) :
  exists r s',
    run startupUnit s = (Returned r, s')
    /\ plugins (agent s') = plugins (agent s)
    /\ ending s r s'.
Proof.
  destruct (initsSucceed_cases (plugins (agent s)) (world s))
    as [[w1 Hinit]|(k & p & wk & e & Hk & Hok & He)].
  - destruct (initPlugins_ok s w1 Hinit) as (s1 & Hrun1 & Hp1 & Hw1 & Ht1 & _ & Hi1 & Ha1).
    rewrite app_nil_r in Ha1.
    destruct (afterInitsSucceed_cases (plugins (agent s)) w1)
      as [[w2 Hafter]|(k & p & f & wk & e & Hk & Hf & Hok & He)].
    + destruct (handleAfterInit_ok s1 w2) as (s2 & lg & Hrun2 & Hp2 & _ & Ht2 & _ & Hi2 & Ha2).
      { by rewrite Hp1, Hw1. }
      exists None, s2. rewrite (startupUnit_init_ok _ _ Hrun1), Hrun2.
      rewrite app_nil_r in Hi2. rewrite Hp1 in *.
      split_and!; [reflexivity|exact Hp2|].
      apply (ending_ok s w1 w2); auto.
      * by rewrite Ht2, Ht1, <- app_assoc.
      * by rewrite Hi2, Hi1.
      * by rewrite Ha2, Ha1.
    + destruct (handleAfterInit_fail (take k (plugins (agent s))) p
                  (drop (S k) (plugins (agent s))) s1 wk f e)
        as (s2 & lg & Hrun2 & Hp2 & Hw2 & Ht2 & _ & Hi2 & Ha2).
      { rewrite Hp1. by apply take_split. }
      { exact Hf. }
      { by rewrite Hw1. }
      { exact He. }
      rewrite app_nil_r in Hi2. rewrite Hp1 in *.
      eexists _, s2. rewrite (startupUnit_init_ok _ _ Hrun1), Hrun2.
      rewrite <- Hw2, <- Hw1.
      split_and!; [reflexivity|exact Hp2|].
      rewrite Hw1.
      apply (ending_afterInit s w1 k p f wk e); auto.
      * by rewrite Ht2, Ht1, <- !app_assoc.
      * by rewrite Hi2, Hi1.
      * by rewrite Ha2, Ha1.
  - destruct (initPlugins_fail (take k (plugins (agent s))) p
                (drop (S k) (plugins (agent s))) s wk e)
      as (s1 & Hrun1 & Hp1 & Hw1 & Ht1 & _ & Hi1 & Ha1).
    { by apply take_split. }
    { exact Hok. }
    { exact He. }
    rewrite app_nil_r in Ha1. rewrite <- (take_S_r _ _ _ Hk) in *.
    eexists _, s1. rewrite (startupUnit_init_fail _ _ _ Hrun1). rewrite <- Hw1.
    split_and!; [reflexivity|exact Hp1|].
    apply (ending_init s k p wk e); auto.
Qed.

Lemma marks_prefix (t1 t2 : list Event) :
  t1 `prefix_of` t2 -> marks t1 `prefix_of` marks t2.
Proof. intros [x ->]. rewrite marks_app. by apply prefix_app_r. Qed.

Lemma calls_prefix (t1 t2 : list Event) :
  t1 `prefix_of` t2 -> calls t1 `prefix_of` calls t2.
Proof. intros [x ->]. rewrite calls_app. by apply prefix_app_r. Qed.

Lemma fmap_prefix {X Y : Type} (g : X -> Y) (l1 l2 : list X) :
  l1 `prefix_of` l2 -> g <$> l1 `prefix_of` g <$> l2.
Proof. intros [x ->]. rewrite fmap_app. by apply prefix_app_r. Qed.

(** A prefix of what a filter selects is what it selects from a prefix. *)
Lemma prefix_filter (P : ptr -> Prop) `{!forall x, Decision (P x)} (i : list ptr)
  (d : list ptr) :
  i `prefix_of` filter P d -> exists d', d' `prefix_of` d /\ i = filter P d'.
Proof.
  revert i. induction d as [|x d IH]; intros i Hi.
  - apply prefix_nil_inv in Hi as ->. by exists [].
  - destruct (decide (P x)) as [Hx|Hx].
    + rewrite filter_cons_True in Hi by done.
      destruct i as [|y i]; [exists []; split; [apply prefix_nil|done]|].
      pose proof (prefix_cons_inv_1 _ _ _ _ Hi) as ->.
      apply prefix_cons_inv_2 in Hi. destruct (IH i Hi) as (d' & Hd' & ->).
      exists (x :: d'). split; [by apply prefix_cons|].
      by rewrite filter_cons_True.
    + rewrite filter_cons_False in Hi by done.
      destruct (IH i Hi) as (d' & Hd' & ->).
      exists (x :: d'). split; [by apply prefix_cons|].
      by rewrite filter_cons_False.
Qed.

Lemma orderly_prefix (l : list ptr) (tr tr' : list Event) (i1 i1' i2 i2' : list ptr) :
  tr `prefix_of` tr' -> i1 `prefix_of` i1' -> i2 `prefix_of` i2' ->
  orderly l tr' i1' i2' -> orderly l tr i1 i2.
Proof.
  intros Ht H1 H2 (Hm & Ha & Hc & Hi & d & Hd & ->).
  unfold orderly. split_and!.
  - etransitivity; [by apply marks_prefix|exact Hm].
  - by eapply announced_prefix.
  - destruct Ht as [x ->]. by apply Forall_app in Hc as [Hc _].
  - by etransitivity.
  - destruct (prefix_filter _ _ _ H2) as (d' & Hd' & ->).
    exists d'. split; [by etransitivity|done].
Qed.

Lemma app_two_snoc {X : Type} (l : list X) (a b : X) (r : list X) :
  l ++ [a; b] ++ r = ((l ++ [a]) ++ [b]) ++ r.
Proof. by rewrite <- !app_assoc. Qed.

(** However the startup ends, what it leaves behind is orderly. *)
Lemma ending_orderly (s : St) (r : option error) (s' : St) :
  initSuccess (startup_ (agent s)) = [] ->
  afterInitSuccess (startup_ (agent s)) = [] ->
  ending s r s' ->
  exists T,
    trace s' = trace s ++ T
    /\ orderly (plugins (agent s)) T
         (initSuccess (startup_ (agent s'))) (afterInitSuccess (startup_ (agent s'))).
Proof.
  intros H1 H2 Hend. destruct Hend as
    [k p wk e s' Hk Hok He Ht Hi Ha
    |w1 k p f wk e s' Hinit Hk Hf Hok He Ht Hi Ha
    |w1 w2 s' Hinit Hafter Ht Hi Ha];
    rewrite H1 in Hi; rewrite H2 in Ha; cbn [app] in Hi, Ha; rewrite Hi, Ha;
    eexists; (split; [exact Ht|]); unfold orderly, allMarks.
  - split_and!.
    + rewrite !marks_app, marks_initEvents, marks_releases, app_nil_r.
      change (marks [EMark (initMark p); ECall MInit p (Some e)]) with (initMark <$> [p]).
      rewrite <- fmap_app, <- (take_S_r _ _ _ Hk).
      apply prefix_app_r, fmap_prefix, prefix_take.
    + rewrite app_two_snoc. apply announced_releases.
      apply announced_snoc; [apply announced_snoc; [apply announced_initEvents|exact I]|].
      by rewrite last_snoc.
    + rewrite !Forall_app. split_and!; [apply capable_initEvents| |apply capable_releases].
      by repeat constructor.
    + apply prefix_take.
    + exists []. split; [apply prefix_nil|done].
  - split_and!.
    + rewrite !marks_app, marks_initEvents, marks_afterInitEvents, marks_releases, app_nil_r.
      change (marks [EMark (afterInitMark p); ECall MAfterInit p (Some e)])
        with (afterInitMark <$> [p]).
      rewrite <- fmap_app, <- (take_S_r _ _ _ Hk).
      apply prefix_app, fmap_prefix, prefix_take.
    + rewrite app_two_snoc, !app_assoc. apply announced_releases.
      apply announced_snoc; [apply announced_snoc; [|exact I]|by rewrite last_snoc].
      apply announced_afterInitEvents, announced_initEvents.
    + rewrite !Forall_app.
      split_and!; [apply capable_initEvents|apply capable_afterInitEvents|
                   |apply capable_releases].
      apply Forall_cons; split; [exact I|]. apply Forall_cons; split; [|constructor].
      unfold capable, hasPostInit. by rewrite Hf.
    + done.
    + exists (take k (plugins (agent s))). split; [apply prefix_take|done].
  - split_and!.
    + by rewrite !marks_app, marks_initEvents, marks_afterInitEvents.
    + apply announced_afterInitEvents, announced_initEvents.
    + rewrite Forall_app. split; [apply capable_initEvents|apply capable_afterInitEvents].
    + done.
    + by exists (plugins (agent s)).
Qed.

(** Every state the startup passes through is orderly. *)
Lemma snapshot_orderly (n : nat) (s : St) :
  initSuccess (startup_ (agent s)) = [] ->
  afterInitSuccess (startup_ (agent s)) = [] ->
  exists T,
    trace (runN n startupUnit s).2 = trace s ++ T
    /\ plugins (agent (runN n startupUnit s).2) = plugins (agent s)
    /\ orderly (plugins (agent s)) T
         (initSuccess (startup_ (agent (runN n startupUnit s).2)))
         (afterInitSuccess (startup_ (agent (runN n startupUnit s).2))).
Proof.
  intros H1 H2.
  destruct (startupUnit_ending s) as (r & s' & Hrun & Hp & Hend).
  destruct (ending_orderly s r s' H1 H2 Hend) as (T & HT & Hord).
  pose proof (stepwise_snapshot extends n startupUnit s stepwise_startupUnit) as Hsnap.
  destruct (stepwise_runN extends n startupUnit s stepwise_startupUnit) as [Hpre _].
  rewrite Hrun in Hsnap. cbn [snd] in Hsnap.
  destruct Hsnap as (_ & Ht & Hi & Ha & _). destruct Hpre as (Hp0 & [T0 Ht0] & _).
  exists T0. split_and!; [exact Ht0|exact Hp0|].
  eapply orderly_prefix; [|exact Hi|exact Ha|exact Hord].
  rewrite Ht0, HT in Ht. by apply prefix_app_inv in Ht.
Qed.

Lemma initPlugins_returns_None (s s1 : St) :
  run initPlugins s = (Returned None, s1) ->
  initSuccess (startup_ (agent s1)) = initSuccess (startup_ (agent s)) ++ plugins (agent s).
Proof.
  intros Hrun.
  destruct (initsSucceed_cases (plugins (agent s)) (world s))
    as [[w1 Hinit]|(k & p & wk & e & Hk & Hok & He)].
  - destruct (initPlugins_ok s w1 Hinit) as (s1' & Hrun' & _ & _ & _ & _ & Hi & _).
    rewrite Hrun in Hrun'. by inversion Hrun'; subst.
  - destruct (initPlugins_fail (take k (plugins (agent s))) p
                (drop (S k) (plugins (agent s))) s wk e) as (s1' & Hrun' & _);
      [by apply take_split|done|done|].
    rewrite Hrun in Hrun'. discriminate.
Qed.

(** A state the startup passes through is a state of the first phase, in
    which the second success list is untouched, or a state of the second
    phase, in which the first success list is complete. *)
Lemma snapshot_phases (n : nat) (s : St) :
  afterInitSuccess (startup_ (agent (runN n startupUnit s).2))
    = afterInitSuccess (startup_ (agent s))
  \/ initSuccess (startup_ (agent (runN n startupUnit s).2))
    = initSuccess (startup_ (agent s)) ++ plugins (agent s).
Proof.
  unfold startupUnit.
  destruct (snapshot_bind n initPlugins
              (fun err => match err with
                          | Some e => Ret (Some e)
                          | None =>
                              err0 <- handleAfterInit ;;
                              match err0 with
                              | Some e => Ret (Some e)
                              | None => Ret None
                              end
                          end) s) as [[n' ->]|(a & s1 & n' & Hrun & ->)].
  - left. by destruct (stepwise_runN phase1 n' initPlugins s stepwise_initPlugins) as [[_ H] _].
  - pose proof (stepwise_run phase1 initPlugins s stepwise_initPlugins) as [_ Hk1].
    rewrite Hrun in Hk1. cbn [snd] in Hk1. destruct a as [e|].
    + left. by destruct n'.
    + right. rewrite <- (initPlugins_returns_None _ _ Hrun).
      destruct (snapshot_bind n' handleAfterInit
                  (fun err0 => match err0 with
                               | Some e => Ret (Some e)
                               | None => Ret None
                               end) s1) as [[n2 ->]|(b & s2 & n2 & Hrun2 & ->)].
      * by destruct (stepwise_runN phase2 n2 handleAfterInit s1 stepwise_handleAfterInit)
          as [[_ H] _].
      * pose proof (stepwise_run phase2 handleAfterInit s1 stepwise_handleAfterInit)
          as [_ Hk2].
        rewrite Hrun2 in Hk2. cbn [snd] in Hk2. by destruct b, n2.
Qed.

(** Reporting to the caller leaves the Agent, the world and the trace as
    the goroutine has them at that moment. *)
Lemma Start_observes (expiry : nat) (s : St) :
  agent (Start expiry s).2 = agent (runN expiry startupUnit (startReport s)).2
  /\ world (Start expiry s).2 = world (runN expiry startupUnit (startReport s)).2
  /\ trace (Start expiry s).2 = trace (runN expiry startupUnit (startReport s)).2.
Proof.
  unfold Start.
  destruct (runN expiry startupUnit (startReport s)) as [[[e|]| |X g k] s1]; auto.
Qed.

Lemma prefix_sublist (l1 l2 : list ptr) : l1 `prefix_of` l2 -> l1 `sublist_of` l2.
Proof. intros [x ->]. by apply sublist_inserts_r. Qed.

Lemma handleAfterInit_error_source (s : St) (r : error) (s' : St) :
  run handleAfterInit s = (Returned (Some r), s') ->
  exists q f e,
    q ∈ plugins (agent s)
    /\ AfterInit (Plugin_ (deref q)) = Some f
    /\ r = logPostErrorFmt (name_of q) e (Duration_sub (now (world s')) (now (world s)))
    /\ ECall MAfterInit q (Some e) ∈ trace s'.
Proof.
  intros Hrun.
  destruct (afterInitsSucceed_cases (plugins (agent s)) (world s))
    as [[w2 Hafter]|(k & q & f & wk & e & Hk & Hf & Hok & He)].
  - destruct (handleAfterInit_ok s w2 Hafter) as (s2 & lg & Hrun2 & _).
    rewrite Hrun in Hrun2. discriminate.
  - destruct (handleAfterInit_fail (take k (plugins (agent s))) q
                (drop (S k) (plugins (agent s))) s wk f e)
      as (s2 & lg & Hrun2 & _ & Hw & Ht & _); [by apply take_split|done..|].
    rewrite Hrun in Hrun2. inversion Hrun2; subst s2.
    exists q, f, e. split_and!; [by eapply list_elem_of_lookup_2|done|by rewrite Hw|].
    rewrite Ht, !elem_of_app. right. right. left. right. left.
Qed.

Lemma snapshot_marker (n : nat) (maxStartup : Z) (l : list ptr) (w : W) :
  marker_is_last_mark (snapshot n (boot maxStartup l w)).
Proof.
  unfold snapshot.
  destruct (stepwise_runN extends n startupUnit (startReport (boot maxStartup l w))
              stepwise_startupUnit) as [(_ & _ & _ & _ & H) _].
  by apply H.
Qed.

Lemma snapshot_trace (n : nat) (maxStartup : Z) (l : list ptr) (w : W) :
  plugins (agent (snapshot n (boot maxStartup l w))) = l
  /\ orderly l (trace (snapshot n (boot maxStartup l w)))
       (initSuccess (startup_ (agent (snapshot n (boot maxStartup l w)))))
       (afterInitSuccess (startup_ (agent (snapshot n (boot maxStartup l w))))).
Proof.
  unfold snapshot.
  destruct (snapshot_orderly n (startReport (boot maxStartup l w)) eq_refl eq_refl)
    as (T & Ht & Hp & Hord).
  rewrite Ht. split; [exact Hp|exact Hord].
Qed.

Lemma length_logTimeoutFmt (marker : string) :
  String.length (logTimeoutFmt marker) = 36 + String.length marker.
Proof. unfold logTimeoutFmt. rewrite !length_append. simpl. lia. Qed.

(** ** Properties of the lifecycle *)

(** C1.  When the timer does not fire first and the plugin at index [k] is
    the first whose [Init] returns an error, the plugin calls of [Start]
    are: [Init] on the plugins at indices [0..k] in registration order,
    then the release operation on the plugins at indices [k, k-1, ..., 0]
    that have one, the failing plugin first.  No other call is made, at
    no moment of the startup: none on a plugin behind index [k], and no
    [AfterInit] at all.  [Start] returns the first-phase error built from
    the name of plugin [k], the error of its [Init] and the time elapsed
    since the phase began. *)
Theorem Start_init_failure_rollback (expiry : nat) (s : St) (k : nat) (p : ptr)
  (wk : W) (e : error) :
  steps startupUnit (startReport s) <= expiry ->
  plugins (agent s) !! k = Some p ->
  initsSucceed (take k (plugins (agent s))) (world s) = Some wk ->
  (Init (Plugin_ (deref p)) wk).1 = Some e ->
  exists s',
    Start expiry s =
      (Returned
         (Some (logErrorFmt (name_of p) e
                  (Duration_sub (now (world s')) (now (world s))))),
       s')
    /\ calls (trace s') =
       calls (trace s)
         ++ ((fun q => (MInit, q)) <$> take (S k) (plugins (agent s)))
         ++ ((fun q => (MClose, q)) <$>
               filter hasClose (reverse (take (S k) (plugins (agent s)))))
    /\ forall n, calls (trace (snapshot n s)) `prefix_of` calls (trace s').
Proof.
  intros Hexp Hk Hok He.
  destruct (initPlugins_fail (take k (plugins (agent s))) p (drop (S k) (plugins (agent s)))
              (startReport s) wk e) as (s' & Hrun & Hev).
  { apply take_split, Hk. }
  { exact Hok. }
  { exact He. }
  rewrite (Start_finished _ _ Hexp), (startupUnit_init_fail _ _ _ Hrun).
  destruct Hev as (_ & Hw & Ht & _).
  unfold startReport in Hw, Ht. cbn [world trace write_log] in Hw, Ht.
  exists (failureReport s'). split_and!.
  - unfold failureReport. st_simpl. rewrite Hw. reflexivity.
  - unfold failureReport. st_simpl. rewrite Ht, (take_S_r _ _ _ Hk).
    rewrite !calls_app, calls_initEvents, calls_releases, fmap_app. cbn [calls omap].
    rewrite <- !app_assoc. reflexivity.
  - intros n. apply calls_prefix. unfold snapshot.
    pose proof (stepwise_snapshot extends n startupUnit (startReport s)
                  stepwise_startupUnit) as (_ & Hpre & _).
    by rewrite (startupUnit_init_fail _ _ _ Hrun) in Hpre.
Qed.

(** C2.  When the timer does not fire first, every [Init] succeeds and the
    plugin at index [k] is the first whose [AfterInit] returns an error,
    the plugin calls of [Start] are: [Init] on every plugin, [AfterInit]
    on the plugins up to index [k] that implement it, then the release
    operation on every plugin of the registered list that has one, from
    the last index down to [0]; at no moment of the startup is any other
    call made.  [Start] returns the second-phase error built from the
    name of plugin [k], the error of its [AfterInit] and the time elapsed
    since the second phase began. *)
Theorem Start_afterInit_failure_unwinds_all (expiry : nat) (s : St) (k : nat) (p : ptr)
  (f : W -> option error * W) (w1 wk : W) (e : error) :
  steps startupUnit (startReport s) <= expiry ->
  initsSucceed (plugins (agent s)) (world s) = Some w1 ->
  plugins (agent s) !! k = Some p ->
  AfterInit (Plugin_ (deref p)) = Some f ->
  afterInitsSucceed (take k (plugins (agent s))) w1 = Some wk ->
  (f wk).1 = Some e ->
  exists s',
    Start expiry s =
      (Returned
         (Some (logPostErrorFmt (name_of p) e
                  (Duration_sub (now (world s')) (now w1)))),
       s')
    /\ calls (trace s') =
       calls (trace s)
         ++ ((fun q => (MInit, q)) <$> plugins (agent s))
         ++ ((fun q => (MAfterInit, q)) <$>
               filter hasPostInit (take (S k) (plugins (agent s))))
         ++ ((fun q => (MClose, q)) <$> filter hasClose (reverse (plugins (agent s))))
    /\ forall n, calls (trace (snapshot n s)) `prefix_of` calls (trace s').
Proof.
  intros Hexp Hinit Hk Ef Hok He.
  destruct (initPlugins_ok (startReport s) w1 Hinit) as (s1 & Hrun1 & Hev1).
  destruct Hev1 as (Hp1 & Hw1 & Ht1 & _).
  unfold startReport in Hp1, Ht1. cbn [agent trace write_log] in Hp1, Ht1.
  destruct (handleAfterInit_fail (take k (plugins (agent s))) p
              (drop (S k) (plugins (agent s))) s1 wk f e) as (s' & lg & Hrun & Hev).
  { rewrite Hp1. apply take_split, Hk. }
  { exact Ef. }
  { rewrite Hw1. exact Hok. }
  { exact He. }
  rewrite (Start_finished _ _ Hexp), (startupUnit_init_ok _ _ Hrun1), Hrun.
  destruct Hev as (_ & Hw & Ht & _). rewrite Hp1 in Hw, Ht.
  exists (failureReport s'). split_and!.
  - unfold failureReport. st_simpl. rewrite Hw, Hw1, Hp1. reflexivity.
  - unfold failureReport. st_simpl. rewrite Ht, Ht1, (take_S_r _ _ _ Hk).
    rewrite !calls_app, calls_initEvents, calls_afterInitEvents, calls_releases.
    rewrite filter_app, fmap_app.
    rewrite (filter_cons_True hasPostInit p []) by (unfold hasPostInit; by rewrite Ef).
    cbn [calls omap]. rewrite <- !app_assoc. reflexivity.
  - intros n. apply calls_prefix. unfold snapshot.
    pose proof (stepwise_snapshot extends n startupUnit (startReport s)
                  stepwise_startupUnit) as (_ & Hpre & _).
    by rewrite (startupUnit_init_ok _ _ Hrun1), Hrun in Hpre.
Qed.

(** C3.  [Stop] does not panic and makes exactly the release calls on the
    plugins of the registered list that have a release operation, once for
    each entry of the list, in reverse registration order, whatever the
    calls return.  It then returns the aggregated error: one entry
    [name: message] for every call that failed, in the order of the calls,
    joined with ["; "]; or no error when no call failed. *)
Theorem Stop_reverse_order_aggregates (s : St) :
  exists s',
    run Stop s =
      (Returned (aggregate (failures (releases (reverse (plugins (agent s))) (world s)).1)),
       s')
    /\ trace s' = trace s ++ (releases (reverse (plugins (agent s))) (world s)).1
    /\ calls (releases (reverse (plugins (agent s))) (world s)).1 =
       (fun q => (MClose, q)) <$> filter hasClose (reverse (plugins (agent s)))
    /\ plugins (agent s') = plugins (agent s).
Proof.
  destruct (Stop_run s) as (s' & lg & Hrun & Hp & _ & Ht & _).
  exists s'. split_and!; [exact Hrun|exact Ht|apply calls_releases|exact Hp].
Qed.

(** C4.  When the timer does not fire first and every [Init] and every
    [AfterInit] succeeds, [Start] on a new Agent returns success, and the
    plugins recorded as successful in the first phase are the registered
    list, in registration order. *)
Theorem Start_all_succeed (expiry : nat) (maxStartup : Z) (l : list ptr) (w w1 w2 : W)
  (tr : list Event) (lg : list LogEntry) :
  steps startupUnit (startReport (mkSt (NewAgent maxStartup l) w tr lg)) <= expiry ->
  initsSucceed l w = Some w1 ->
  afterInitsSucceed l w1 = Some w2 ->
  exists s',
    Start expiry (mkSt (NewAgent maxStartup l) w tr lg) = (Returned None, s')
    /\ plugins (agent s') = l
    /\ initSuccess (startup_ (agent s')) = l
    /\ afterInitSuccess (startup_ (agent s')) = filter hasPostInit l.
Proof.
  intros Hexp Hinit Hafter.
  set (s := mkSt (NewAgent maxStartup l) w tr lg) in *.
  destruct (initPlugins_ok (startReport s) w1 Hinit) as (s1 & Hrun1 & Hev1).
  destruct Hev1 as (Hp1 & Hw1 & _ & _ & Hi1 & Ha1).
  unfold startReport in Hp1, Hi1, Ha1. cbn in Hp1, Hi1, Ha1.
  destruct (handleAfterInit_ok s1 w2) as (s2 & lg2 & Hrun2 & Hev2).
  { rewrite Hp1, Hw1. exact Hafter. }
  destruct Hev2 as (Hp2 & _ & _ & _ & Hi2 & Ha2).
  rewrite (Start_finished _ _ Hexp), (startupUnit_init_ok _ _ Hrun1), Hrun2.
  exists (successReport s2). unfold successReport. st_simpl.
  rewrite Hp2, Hi2, Ha2, Hp1, Hi1, Ha1, !app_nil_r. auto.
Qed.


(** C6.  In every state the startup of a new Agent passes through, and in
    the state [Start] leaves behind whenever its timer fires, the two
    success lists are subsequences of the registered list, in registration
    order, and a plugin is in the second-phase list only if it is in the
    first-phase list and implements the second phase. *)
Theorem success_lists_follow_registration (maxStartup : Z) (l : list ptr) (w : W)
  (n : nat) :
  follows_registration l (snapshot n (boot maxStartup l w))
  /\ follows_registration l (Start n (boot maxStartup l w)).2.
Proof.
  assert (follows_registration l (snapshot n (boot maxStartup l w))) as H.
  { unfold follows_registration, snapshot.
    destruct (snapshot_orderly n (startReport (boot maxStartup l w)) eq_refl eq_refl)
      as (T & _ & _ & _ & _ & _ & Hi & d & Hd & Ha).
    cbn [startReport boot agent write_log NewAgent plugins] in Hi, Hd, Ha.
    split_and!.
    - by apply prefix_sublist.
    - rewrite Ha. etransitivity; [apply sublist_filter|by apply prefix_sublist].
    - intros p Hp. split.
      + destruct (snapshot_phases n (startReport (boot maxStartup l w))) as [H|H].
        * rewrite H in Hp. by apply elem_of_nil in Hp.
        * rewrite H. cbn. rewrite Ha in Hp. apply list_elem_of_filter in Hp as [_ Hp].
          destruct Hd as [x ->]. apply elem_of_app. by left.
      + rewrite Ha in Hp. by apply list_elem_of_filter in Hp as [Hp _]. }
  split; [exact H|].
  unfold follows_registration in *. unfold snapshot in H.
  destruct (Start_observes n (boot maxStartup l w)) as [-> _]. exact H.
Qed.

(** C7.  When the plugin at index [k] is the first whose [Init] fails,
    [initPlugins] returns the error built from the name of that plugin,
    the error of its [Init] and the time elapsed since the phase began,
    measured when the release calls are over.  The world then is the one
    the release calls lead to whatever they return; each release call that
    returned an error has left a warning in the log and nothing in the
    returned error. *)
Theorem initPlugins_error_ignores_release_errors (s : St) (k : nat) (p : ptr) (wk : W)
  (e : error) :
  plugins (agent s) !! k = Some p ->
  initsSucceed (take k (plugins (agent s))) (world s) = Some wk ->
  (Init (Plugin_ (deref p)) wk).1 = Some e ->
  exists s',
    run initPlugins s =
      (Returned
         (Some (logErrorFmt (name_of p) e (Duration_sub (now (world s')) (now (world s))))),
       s')
    /\ world s' =
       releasedWorld (reverse (take (S k) (plugins (agent s)))) (Init (Plugin_ (deref p)) wk).2
    /\ logs s' =
       logs s ++ initLogs (take k (plugins (agent s)))
         ++ closeWarnings
              (releases (reverse (take (S k) (plugins (agent s))))
                 (Init (Plugin_ (deref p)) wk).2).1
    /\ (forall q ce,
          ECall MClose q (Some ce) ∈
            (releases (reverse (take (S k) (plugins (agent s))))
               (Init (Plugin_ (deref p)) wk).2).1 ->
          mkLog LWarn [] [VStr "err closing "; VStr (name_of q); VStr " "; VErr (Some ce)]
            ∈ logs s').
Proof.
  intros Hk Hok He.
  destruct (initPlugins_fail (take k (plugins (agent s))) p (drop (S k) (plugins (agent s)))
              s wk e) as (s' & Hrun & _ & Hw & _ & Hl & _).
  { by apply take_split. }
  { exact Hok. }
  { exact He. }
  rewrite <- (take_S_r _ _ _ Hk) in *.
  exists s'. split_and!.
  - by rewrite Hw.
  - by rewrite Hw, releases_world.
  - exact Hl.
  - intros q ce Hin. rewrite Hl, !elem_of_app. right. right.
    unfold closeWarnings. apply list_elem_of_omap. by exists (ECall MClose q (Some ce)).
Qed.

(** C8.  A plugin [p] that does not implement the second phase: the loop of
    the second phase does nothing for it but write the marker and go on to
    the next plugin; in no state the startup of a new Agent passes through
    has [p] received an [AfterInit] call or been added to the second-phase
    success list; and a second-phase error comes from a call of
    [AfterInit] on a plugin that implements it, so never from [p]. *)
Theorem plugin_without_PostInit_is_skipped (p : ptr) :
  AfterInit (Plugin_ (deref p)) = None ->
  (forall t rest s,
      run (afterInitLoop t (p :: rest)) s =
      run (afterInitLoop t rest)
        (emit (EMark (afterInitMark p))
           (set_agent (with_currentlyProcessing (afterInitMark p)) s)))
  /\ (forall maxStartup l w n r,
        (ECall MAfterInit p r ∉ trace (snapshot n (boot maxStartup l w)))
        /\ (p ∉ afterInitSuccess (startup_ (agent (snapshot n (boot maxStartup l w))))))
  /\ (forall s r s',
        run handleAfterInit s = (Returned (Some r), s') ->
        exists q f e,
          q <> p
          /\ q ∈ plugins (agent s)
          /\ AfterInit (Plugin_ (deref q)) = Some f
          /\ r = logPostErrorFmt (name_of q) e (Duration_sub (now (world s')) (now (world s)))
          /\ ECall MAfterInit q (Some e) ∈ trace s').
Proof.
  intros Hp. split_and!.
  - intros t rest s. cbn [afterInitLoop]. run_act. by rewrite Hp.
  - intros maxStartup l w n r. unfold snapshot.
    destruct (snapshot_orderly n (startReport (boot maxStartup l w)) eq_refl eq_refl)
      as (T & Ht & _ & _ & _ & Hc & _ & d & _ & Ha).
    split.
    + rewrite Ht. cbn [startReport boot trace write_log app]. intros Hin.
      rewrite Forall_forall in Hc. specialize (Hc _ Hin).
      unfold capable, hasPostInit in Hc. by rewrite Hp in Hc.
    + rewrite Ha. rewrite list_elem_of_filter. unfold hasPostInit. rewrite Hp.
      by intros [? _].
  - intros s r s' Hrun.
    destruct (handleAfterInit_error_source s r s' Hrun) as (q & f & e & Hq & Hf & Hr & He).
    exists q, f, e. split_and!; auto. intros ->. congruence.
Qed.

(** C9.  For a list [initialized] of plugins drawn from the registered
    list, [calculateDiff] returns the registered plugins that are not in
    [initialized], in registration order.  Every registered plugin is in
    one of the two lists and none is in both; when no plugin is registered
    twice and [initialized] keeps the registration order, the two lists
    together are a rearrangement of the registered list. *)
Theorem calculateDiff_partition (a : Agent) (initialized : list ptr) :
  initialized ⊆ plugins a ->
  calculateDiff a initialized = filter (fun q => q ∉ initialized) (plugins a)
  /\ (forall q, q ∈ plugins a <-> q ∈ initialized \/ q ∈ calculateDiff a initialized)
  /\ (forall q, q ∈ initialized -> q ∉ calculateDiff a initialized)
  /\ (NoDup (plugins a) -> initialized `sublist_of` plugins a ->
      initialized ++ calculateDiff a initialized ≡ₚ plugins a).
Proof.
  intros Hsub. rewrite calculateDiff_filter. split_and!.
  - reflexivity.
  - intros q. rewrite list_elem_of_filter. split.
    + intros Hq. destruct (decide (q ∈ initialized)); auto.
    + intros [Hq|[_ Hq]]; [by apply Hsub|exact Hq].
  - intros q Hq. rewrite list_elem_of_filter. by intros [Hn _].
  - intros Hnd Hsl.
    rewrite <- (sublist_filter_elem_of _ _ Hsl Hnd) at 1.
    apply filter_app_complement.
Qed.

(** C10.  During the startup of a new Agent every call of [Init] or
    [AfterInit] comes directly after the write of the marker that names
    the plugin and the phase, [name Init()] or [name AfterInit()]; the
    markers are written in the order of the registered list, first for the
    first phase and then for the second, the second-phase marker for every
    plugin the loop reaches, whether it implements the second phase or
    not; and the marker holds the value last written.  When the timer
    fires first, the error of [Start] holds that marker as it is, the
    phase suffix included, not the bare plugin name. *)
Theorem marker_names_plugin_and_phase (maxStartup : Z) (l : list ptr) (w : W) :
  (forall n,
      announced (trace (snapshot n (boot maxStartup l w)))
      /\ marks (trace (snapshot n (boot maxStartup l w))) `prefix_of` allMarks l
      /\ currentlyProcessing (startup_ (agent (snapshot n (boot maxStartup l w))))
         = default "" (last (marks (trace (snapshot n (boot maxStartup l w))))))
  /\ (exists r s',
        run startupUnit (startReport (boot maxStartup l w)) = (Returned r, s')
        /\ ((exists k, k < length l /\ marks (trace s') = initMark <$> take (S k) l)
            \/ (exists k, k < length l
                  /\ marks (trace s') = (initMark <$> l) ++ (afterInitMark <$> take (S k) l))
            \/ (r = None /\ marks (trace s') = allMarks l)))
  /\ (forall expiry,
        expiry < steps startupUnit (startReport (boot maxStartup l w)) ->
        (Start expiry (boot maxStartup l w)).1 =
        Returned
          (Some (logTimeoutFmt
                   (default "" (last (marks (trace (snapshot expiry (boot maxStartup l w)))))))))
  /\ (forall p,
        logTimeoutFmt (initMark p)
          = "plugin " +:+ name_of p +:+ " Init() not completed before timeout"
        /\ logTimeoutFmt (afterInitMark p)
          = "plugin " +:+ name_of p +:+ " AfterInit() not completed before timeout"
        /\ logTimeoutFmt (initMark p) <> logTimeoutFmt (name_of p)
        /\ logTimeoutFmt (afterInitMark p) <> logTimeoutFmt (name_of p)).
Proof.
  split_and!.
  - intros n. destruct (snapshot_trace n maxStartup l w) as (_ & Hm & Ha & _).
    split_and!; [exact Ha|exact Hm|apply snapshot_marker].
  - destruct (startupUnit_ending (startReport (boot maxStartup l w)))
      as (r & s' & Hrun & _ & Hend).
    exists r, s'. split; [exact Hrun|].
    destruct Hend as
      [k p wk e s' Hk Hok He Ht Hi Ha
      |w1 k p f wk e s' Hinit Hk Hf Hok He Ht Hi Ha
      |w1 w2 s' Hinit Hafter Ht Hi Ha];
      rewrite Ht; cbn [startReport boot agent trace write_log NewAgent plugins] in *;
      rewrite app_nil_l.
    + left. exists k. split; [by eapply lookup_lt_Some|].
      rewrite !marks_app, marks_initEvents, marks_releases, app_nil_r.
      change (marks [EMark (initMark p); ECall MInit p (Some e)]) with (initMark <$> [p]).
      by rewrite <- fmap_app, <- (take_S_r _ _ _ Hk).
    + right. left. exists k. split; [by eapply lookup_lt_Some|].
      rewrite !marks_app, marks_initEvents, marks_afterInitEvents, marks_releases, app_nil_r.
      change (marks [EMark (afterInitMark p); ECall MAfterInit p (Some e)])
        with (afterInitMark <$> [p]).
      by rewrite <- fmap_app, <- (take_S_r _ _ _ Hk).
    + right. right. split; [done|].
      by rewrite !marks_app, marks_initEvents, marks_afterInitEvents.
  - intros expiry Hexp. rewrite (Start_expired _ _ Hexp). cbn [fst].
    by rewrite <- (snapshot_marker expiry maxStartup l w).
  - intros p. split_and!.
    + unfold logTimeoutFmt, initMark. by rewrite !append_assoc.
    + unfold logTimeoutFmt, afterInitMark. by rewrite !append_assoc.
    + intros H. apply (f_equal String.length) in H.
      rewrite !length_logTimeoutFmt in H. unfold initMark in H.
      rewrite length_append in H. simpl in H. lia.
    + intros H. apply (f_equal String.length) in H.
      rewrite !length_logTimeoutFmt in H. unfold afterInitMark in H.
      rewrite length_append in H. simpl in H. lia.
Qed.

(** ** Further properties of the orchestrator *)




(** [Stop] writes no field of the Agent. *)
Lemma Stop_keeps_agent (s : St) : agent (run Stop s).2 = agent s.
Proof.
  unfold Stop. run_act. run_act. rewrite run_bind.
  match goal with |- context [run (stopLoop ?n ?e) ?s1] =>
    destruct (stopLoop_run n e s1) as (s' & lg & Hrun & Ha & _); [simpl; lia|] end.
  rewrite Hrun. run_act. destruct (bool_decide _); exact Ha.
Qed.

(** X3.  [Stop] records nothing about having run: it leaves every field
    of the Agent as it was, so a second [Stop] makes all the release calls
    again, in the same reverse order, on the world the first one left. *)
Theorem Stop_twice_releases_twice (s : St) :
  exists s1 s2,
    run Stop s =
      (Returned (aggregate (failures (releases (reverse (plugins (agent s))) (world s)).1)),
       s1)
    /\ agent s1 = agent s
    /\ run Stop s1 =
       (Returned
          (aggregate (failures (releases (reverse (plugins (agent s))) (world s1)).1)),
        s2)
    /\ world s1 = (releases (reverse (plugins (agent s))) (world s)).2
    /\ calls (trace s2) =
       calls (trace s)
         ++ ((fun q => (MClose, q)) <$> filter hasClose (reverse (plugins (agent s))))
         ++ ((fun q => (MClose, q)) <$> filter hasClose (reverse (plugins (agent s)))).
Proof.
  destruct (Stop_run s) as (s1 & lg1 & Hrun1 & Hp1 & Hw1 & Ht1 & _).
  destruct (Stop_run s1) as (s2 & lg2 & Hrun2 & Hp2 & Hw2 & Ht2 & _).
  pose proof (Stop_keeps_agent s) as Ha. rewrite Hrun1 in Ha. cbn [snd] in Ha.
  rewrite Hp1 in Hrun2, Ht2.
  exists s1, s2. split_and!; [exact Hrun1|exact Ha|exact Hrun2|exact Hw1|].
  rewrite Ht2, Ht1, !calls_app, !calls_releases, <- app_assoc. reflexivity.
Qed.

(** X4.  [Stop] after a [Start] that failed in the first phase at index
    [k]: the rollback has already released the plugins [k..0], and [Stop]
    makes a release call on every registered plugin that has a release
    operation.  So the plugins up to [k] are released a second time, and
    the plugins behind [k] are released although [Init] was never called
    on them. *)
Theorem Stop_after_failed_Init (expiry : nat) (s : St) (k : nat) (p : ptr)
  (wk : W) (e : error) :
  steps startupUnit (startReport s) <= expiry ->
  plugins (agent s) !! k = Some p ->
  initsSucceed (take k (plugins (agent s))) (world s) = Some wk ->
  (Init (Plugin_ (deref p)) wk).1 = Some e ->
  exists r s',
    run Stop (Start expiry s).2 = (Returned r, s')
    /\ calls (trace s') =
       calls (trace s)
         ++ ((fun q => (MInit, q)) <$> take (S k) (plugins (agent s)))
         ++ ((fun q => (MClose, q)) <$>
               filter hasClose (reverse (take (S k) (plugins (agent s)))))
         ++ ((fun q => (MClose, q)) <$> filter hasClose (reverse (plugins (agent s)))).
Proof.
  intros Hexp Hk Hok He.
  destruct (initPlugins_fail (take k (plugins (agent s))) p (drop (S k) (plugins (agent s)))
              (startReport s) wk e) as (s1 & Hrun & Hp & _ & Ht & _).
  { apply take_split, Hk. }
  { exact Hok. }
  { exact He. }
  rewrite (Start_finished _ _ Hexp), (startupUnit_init_fail _ _ _ Hrun). cbn [snd].
  destruct (Stop_run (failureReport s1)) as (s' & lg & Hrun' & _ & _ & Ht' & _).
  unfold startReport in Hp, Ht. cbn [agent trace write_log] in Hp, Ht.
  unfold failureReport in Hrun', Ht' at 1 2. cbn [agent trace world write_log] in Hrun', Ht'.
  eexists _, s'. split; [exact Hrun'|].
  rewrite Ht', Ht, Hp, (take_S_r _ _ _ Hk).
  rewrite !calls_app, calls_initEvents, !calls_releases, fmap_app. cbn [calls omap].
  rewrite <- !app_assoc. reflexivity.
Qed.

Lemma filter_all (P : ptr -> Prop) `{!forall x, Decision (P x)} (l : list ptr) :
  (forall x, x ∈ l -> P x) -> filter P l = l.
Proof.
  induction l as [|a l IH]; intros Hall; [reflexivity|].
  rewrite filter_cons_True by (apply Hall; left).
  f_equal. apply IH. intros x Hx. apply Hall. by right.
Qed.

Lemma filter_none (P : ptr -> Prop) `{!forall x, Decision (P x)} (l : list ptr) :
  (forall x, x ∈ l -> ~ P x) -> filter P l = [].
Proof.
  induction l as [|a l IH]; intros Hnone; [reflexivity|].
  rewrite filter_cons_False by (apply Hnone; left).
  apply IH. intros x Hx. apply Hnone. by right.
Qed.

(** In a list without duplicates, the plugins that are not among the
    first [k] are the plugins from index [k] on. *)
Lemma filter_not_take (l : list ptr) (k : nat) :
  NoDup l -> filter (fun q => q ∉ take k l) l = drop k l.
Proof.
  intros Hnd. rewrite <- (take_drop k l) in Hnd.
  apply NoDup_app in Hnd as (_ & Hdisj & _).
  transitivity (filter (fun q => q ∉ take k l) (take k l ++ drop k l));
    [by rewrite take_drop|].
  rewrite filter_app.
  rewrite filter_none by (intros x Hx Hn; by apply Hn).
  rewrite filter_all; [reflexivity|].
  intros x Hx Hin. by apply (Hdisj x).
Qed.

(** X5.  What [Start] logs when the first phase of a new Agent fails at
    index [k]: the last log entry is the failure report; its [Init succ]
    are the plugins before index [k], its [Init fail] the registered
    plugins that are not among them (the plugins from index [k] on, when
    no plugin is registered twice), its [AfterInit succ] is empty and its
    [AfterInitFail] is the whole registered list, the plugins without a
    second phase included. *)
Theorem failure_report_after_failed_Init (expiry : nat) (maxStartup : Z) (l : list ptr)
  (w : W) (k : nat) (p : ptr) (wk : W) (e : error) :
  steps startupUnit (startReport (boot maxStartup l w)) <= expiry ->
  l !! k = Some p ->
  initsSucceed (take k l) w = Some wk ->
  (Init (Plugin_ (deref p)) wk).1 = Some e ->
  last (logs (Start expiry (boot maxStartup l w)).2) =
    Some (mkLog LError
            [("AfterInitFail: ", VPlugins l);
             ("AfterInit succ: ", VPlugins []);
             ("Init succ: ", VPlugins (take k l));
             ("Init fail: ", VPlugins (filter (fun q => q ∉ take k l) l))]
            [VStr "Agent failed to start"])
  /\ (NoDup l -> filter (fun q => q ∉ take k l) l = drop k l).
Proof.
  intros Hexp Hk Hok He. split; [|apply filter_not_take].
  destruct (initPlugins_fail (take k l) p (drop (S k) l)
              (startReport (boot maxStartup l w)) wk e)
    as (s1 & Hrun & Hp & _ & _ & _ & Hi & Ha).
  { apply take_split, Hk. }
  { exact Hok. }
  { exact He. }
  rewrite (Start_finished _ _ Hexp), (startupUnit_init_fail _ _ _ Hrun). cbn [snd].
  unfold startReport, boot in Hp, Hi, Ha.
  cbn [agent write_log NewAgent plugins startup_ initSuccess afterInitSuccess app]
    in Hp, Hi, Ha.
  unfold failureReport. cbn [logs write_log]. rewrite last_snoc.
  rewrite !calculateDiff_filter, Hp, Hi, Ha.
  rewrite (filter_all (fun q => q ∉ [])) by (intros x _; apply not_elem_of_nil).
  reflexivity.
Qed.

(** The actions of the two loops and of [Stop] write neither of the two
    durations nor the maximum startup time. *)
Definition keeps_durations (s s' : St) : Prop :=
  MaxStartupTime (startup_ (agent s')) = MaxStartupTime (startup_ (agent s))
  /\ initDuration (startup_ (agent s')) = initDuration (startup_ (agent s))
  /\ afterInitDuration (startup_ (agent s')) = afterInitDuration (startup_ (agent s)).

Global Instance keeps_durations_preorder : PreOrder keeps_durations.
Proof.
  split.
  - intros s. by unfold keeps_durations.
  - intros s1 s2 s3 (H1 & H2 & H3) (H1' & H2' & H3').
    unfold keeps_durations. split_and!; congruence.
Qed.

(** Go through a program action by action. *)
Ltac keeps_durations_act :=
  intros ?; unfold keeps_durations;
  try match goal with |- context [Close ?x] => destruct (Close x) end;
  st_simpl; auto.

Ltac walk known :=
  repeat first
    [ exact I
    | known
    | apply stepwise_bind; [|intros ?]
    | apply stepwise_act; keeps_durations_act
    | match goal with |- stepwise _ (match ?x with _ => _ end) => destruct x end
    | match goal with |- stepwise _ (if ?x then _ else _) => destruct x end ].

Lemma durations_pluginAt (i : nat) : stepwise keeps_durations (pluginAt i).
Proof. unfold pluginAt. walk fail. Qed.

Lemma durations_stopLoop (n : nat) (errMsg : string) :
  stepwise keeps_durations (stopLoop n errMsg).
Proof.
  revert errMsg. induction n as [|i IH]; intros errMsg; [exact I|].
  cbn [stopLoop]. walk ltac:(first [apply IH|apply durations_pluginAt]).
Qed.

Lemma durations_Stop : stepwise keeps_durations Stop.
Proof. unfold Stop. walk ltac:(apply durations_stopLoop). Qed.

Lemma durations_rollback (j : nat) : stepwise keeps_durations (rollback j).
Proof.
  induction j as [|j IH]; cbn [rollback];
    walk ltac:(first [apply IH|apply durations_pluginAt]).
Qed.

Lemma durations_initLoop (t : Z) (i : nat) (rest : list ptr) :
  stepwise keeps_durations (initLoop t i rest).
Proof.
  revert i. induction rest as [|p rest IH]; intros i; [exact I|].
  cbn [initLoop]. walk ltac:(first [apply IH|apply durations_rollback]).
Qed.

Lemma durations_afterInitLoop (t : Z) (rest : list ptr) :
  stepwise keeps_durations (afterInitLoop t rest).
Proof.
  induction rest as [|p rest IH]; [exact I|].
  cbn [afterInitLoop]. walk ltac:(first [apply IH|apply durations_Stop]).
Qed.

Lemma initPlugins_unfold (s : St) :
  run initPlugins s =
  match run (initLoop (now (world s)) 0 (plugins (agent s))) s with
  | (Returned (Some e), s1) => (Returned (Some e), s1)
  | (Returned None, s1) =>
      (Returned None,
       set_agent (with_initDuration (Duration_sub (now (world s1)) (now (world s)))) s1)
  | (Panicked, s1) => (Panicked, s1)
  end.
Proof.
  unfold initPlugins. run_act. run_act. rewrite run_bind.
  destruct (run (initLoop (now (world s)) 0 (plugins (agent s))) s) as [[[e|]|] s1];
    reflexivity.
Qed.

Lemma handleAfterInit_unfold (s : St) :
  run handleAfterInit s =
  match run (afterInitLoop (now (world s)) (plugins (agent s))) s with
  | (Returned (Some e), s1) => (Returned (Some e), s1)
  | (Returned None, s1) =>
      (Returned None,
       set_agent (with_afterInitDuration (Duration_sub (now (world s1)) (now (world s)))) s1)
  | (Panicked, s1) => (Panicked, s1)
  end.
Proof.
  unfold handleAfterInit. run_act. run_act. rewrite run_bind.
  destruct (run (afterInitLoop (now (world s)) (plugins (agent s))) s) as [[[e|]|] s1];
    reflexivity.
Qed.

(** A phase that returns an error has written no duration. *)
Lemma initPlugins_error_keeps_durations (s : St) (r : error) (s1 : St) :
  run initPlugins s = (Returned (Some r), s1) -> keeps_durations s s1.
Proof.
  rewrite initPlugins_unfold.
  pose proof (stepwise_run keeps_durations _ s
                (durations_initLoop (now (world s)) 0 (plugins (agent s)))) as H.
  destruct (run (initLoop (now (world s)) 0 (plugins (agent s))) s) as [[[e|]|] s1'];
    intros Heq; inversion Heq; subst. exact H.
Qed.

Lemma handleAfterInit_error_keeps_durations (s : St) (r : error) (s1 : St) :
  run handleAfterInit s = (Returned (Some r), s1) -> keeps_durations s s1.
Proof.
  rewrite handleAfterInit_unfold.
  pose proof (stepwise_run keeps_durations _ s
                (durations_afterInitLoop (now (world s)) (plugins (agent s)))) as H.
  destruct (run (afterInitLoop (now (world s)) (plugins (agent s))) s) as [[[e|]|] s1'];
    intros Heq; inversion Heq; subst. exact H.
Qed.

(** A phase that succeeds writes its own duration, and only that. *)
Lemma initPlugins_ok_durations (s s1 : St) :
  run initPlugins s = (Returned None, s1) ->
  MaxStartupTime (startup_ (agent s1)) = MaxStartupTime (startup_ (agent s))
  /\ initDuration (startup_ (agent s1)) = Duration_sub (now (world s1)) (now (world s))
  /\ afterInitDuration (startup_ (agent s1)) = afterInitDuration (startup_ (agent s)).
Proof.
  rewrite initPlugins_unfold.
  pose proof (stepwise_run keeps_durations _ s
                (durations_initLoop (now (world s)) 0 (plugins (agent s)))) as (H1 & H2 & H3).
  destruct (run (initLoop (now (world s)) 0 (plugins (agent s))) s) as [[[e|]|] s1'];
    intros Heq; inversion Heq; subst. cbn [snd] in *. st_simpl. auto.
Qed.

Lemma handleAfterInit_ok_durations (s s1 : St) :
  run handleAfterInit s = (Returned None, s1) ->
  MaxStartupTime (startup_ (agent s1)) = MaxStartupTime (startup_ (agent s))
  /\ initDuration (startup_ (agent s1)) = initDuration (startup_ (agent s))
  /\ afterInitDuration (startup_ (agent s1)) = Duration_sub (now (world s1)) (now (world s)).
Proof.
  rewrite handleAfterInit_unfold.
  pose proof (stepwise_run keeps_durations _ s
                (durations_afterInitLoop (now (world s)) (plugins (agent s))))
    as (H1 & H2 & H3).
  destruct (run (afterInitLoop (now (world s)) (plugins (agent s))) s) as [[[e|]|] s1'];
    intros Heq; inversion Heq; subst. cbn [snd] in *. st_simpl. auto.
Qed.

(** X6.  When the timer does not fire first and both phases succeed,
    [Start] records the duration of each phase: [initDuration] is the
    clock after the last [Init] minus the clock when the first phase
    began, [afterInitDuration] the clock after the last [AfterInit] minus
    the clock when the second phase began, each saturated to the range of
    a [time.Duration].  The last log entry reports their [int64] sum, and
    [MaxStartupTime] is as before. *)
Theorem Start_records_durations (expiry : nat) (s : St) (w1 w2 : W) :
  steps startupUnit (startReport s) <= expiry ->
  initsSucceed (plugins (agent s)) (world s) = Some w1 ->
  afterInitsSucceed (plugins (agent s)) w1 = Some w2 ->
  initDuration (startup_ (agent (Start expiry s).2)) = Duration_sub (now w1) (now (world s))
  /\ afterInitDuration (startup_ (agent (Start expiry s).2)) = Duration_sub (now w2) (now w1)
  /\ MaxStartupTime (startup_ (agent (Start expiry s).2)) = MaxStartupTime (startup_ (agent s))
  /\ last (logs (Start expiry s).2) =
     Some (mkLog LInfo
             [("durationNs:",
               VInt (wrap64 (Duration_sub (now w1) (now (world s))
                             + Duration_sub (now w2) (now w1))))]
             [VStr "All plugins initialized successfully"]).
Proof.
  intros Hexp Hinit Hafter.
  destruct (initPlugins_ok (startReport s) w1 Hinit) as (s1 & Hrun1 & Hp1 & Hw1 & _).
  destruct (handleAfterInit_ok s1 w2) as (s2 & lg & Hrun2 & _ & Hw2 & _).
  { rewrite Hp1, Hw1. exact Hafter. }
  destruct (initPlugins_ok_durations _ _ Hrun1) as (Hm1 & Hi1 & Ha1).
  destruct (handleAfterInit_ok_durations _ _ Hrun2) as (Hm2 & Hi2 & Ha2).
  rewrite (Start_finished _ _ Hexp), (startupUnit_init_ok _ _ Hrun1), Hrun2.
  unfold successReport. cbn [snd agent logs write_log]. rewrite last_snoc.
  rewrite Hm2, Hi2, Ha2, Hm1, Hi1, Hw2, Hw1. auto.
Qed.

(** X7.  When the first phase fails, [Start] records no duration: the two
    duration fields and [MaxStartupTime] are what they were on entry,
    although the error it returns carries the time the failed phase
    took. *)
Theorem failed_Init_records_no_duration (expiry : nat) (s : St) (k : nat) (p : ptr)
  (wk : W) (e : error) :
  steps startupUnit (startReport s) <= expiry ->
  plugins (agent s) !! k = Some p ->
  initsSucceed (take k (plugins (agent s))) (world s) = Some wk ->
  (Init (Plugin_ (deref p)) wk).1 = Some e ->
  initDuration (startup_ (agent (Start expiry s).2)) = initDuration (startup_ (agent s))
  /\ afterInitDuration (startup_ (agent (Start expiry s).2))
     = afterInitDuration (startup_ (agent s))
  /\ MaxStartupTime (startup_ (agent (Start expiry s).2)) = MaxStartupTime (startup_ (agent s)).
Proof.
  intros Hexp Hk Hok He.
  destruct (initPlugins_fail (take k (plugins (agent s))) p (drop (S k) (plugins (agent s)))
              (startReport s) wk e) as (s1 & Hrun & _).
  { apply take_split, Hk. }
  { exact Hok. }
  { exact He. }
  destruct (initPlugins_error_keeps_durations _ _ _ Hrun) as (Hm & Hi & Ha).
  rewrite (Start_finished _ _ Hexp), (startupUnit_init_fail _ _ _ Hrun).
  unfold failureReport. cbn [snd agent write_log]. auto.
Qed.

(** X8.  When the first phase succeeds and the second fails, [Start] has
    recorded the duration of the first phase and not that of the second. *)
Theorem failed_AfterInit_records_first_duration (expiry : nat) (s : St) (k : nat) (p : ptr)
  (f : W -> option error * W) (w1 wk : W) (e : error) :
  steps startupUnit (startReport s) <= expiry ->
  initsSucceed (plugins (agent s)) (world s) = Some w1 ->
  plugins (agent s) !! k = Some p ->
  AfterInit (Plugin_ (deref p)) = Some f ->
  afterInitsSucceed (take k (plugins (agent s))) w1 = Some wk ->
  (f wk).1 = Some e ->
  initDuration (startup_ (agent (Start expiry s).2)) = Duration_sub (now w1) (now (world s))
  /\ afterInitDuration (startup_ (agent (Start expiry s).2))
     = afterInitDuration (startup_ (agent s)).
Proof.
  intros Hexp Hinit Hk Ef Hok He.
  destruct (initPlugins_ok (startReport s) w1 Hinit) as (s1 & Hrun1 & Hp1 & Hw1 & _).
  unfold startReport in Hp1. cbn [agent write_log] in Hp1.
  destruct (handleAfterInit_fail (take k (plugins (agent s))) p
              (drop (S k) (plugins (agent s))) s1 wk f e) as (s2 & lg & Hrun2 & _).
  { rewrite Hp1. apply take_split, Hk. }
  { exact Ef. }
  { rewrite Hw1. exact Hok. }
  { exact He. }
  destruct (initPlugins_ok_durations _ _ Hrun1) as (_ & Hi1 & Ha1).
  destruct (handleAfterInit_error_keeps_durations _ _ _ Hrun2) as (_ & Hi2 & Ha2).
  rewrite (Start_finished _ _ Hexp), (startupUnit_init_ok _ _ Hrun1), Hrun2.
  unfold failureReport. cbn [snd agent write_log].
  rewrite Hi2, Ha2, Hi1, Ha1, Hw1. auto.
Qed.

(** X9.  [Start] does not reset the bookkeeping of the Agent: when the
    timer does not fire first and both phases succeed, the registered
    plugins are appended to whatever [initSuccess] held, and those that
    implement the second phase to whatever [afterInitSuccess] held.  The
    calls are [Init] on every plugin and then [AfterInit] on those that
    implement it; no release call is made.  So a second [Start] of the
    same Agent lists every plugin twice. *)
Theorem Start_appends_to_success_lists (expiry : nat) (s : St) (w1 w2 : W) :
  steps startupUnit (startReport s) <= expiry ->
  initsSucceed (plugins (agent s)) (world s) = Some w1 ->
  afterInitsSucceed (plugins (agent s)) w1 = Some w2 ->
  exists s',
    Start expiry s = (Returned None, s')
    /\ initSuccess (startup_ (agent s'))
       = initSuccess (startup_ (agent s)) ++ plugins (agent s)
    /\ afterInitSuccess (startup_ (agent s'))
       = afterInitSuccess (startup_ (agent s)) ++ filter hasPostInit (plugins (agent s))
    /\ calls (trace s') =
       calls (trace s)
         ++ ((fun q => (MInit, q)) <$> plugins (agent s))
         ++ ((fun q => (MAfterInit, q)) <$> filter hasPostInit (plugins (agent s))).
Proof.
  intros Hexp Hinit Hafter.
  destruct (initPlugins_ok (startReport s) w1 Hinit)
    as (s1 & Hrun1 & Hp1 & Hw1 & Ht1 & _ & Hi1 & Ha1).
  unfold startReport in Hp1, Ht1, Hi1, Ha1.
  cbn [agent trace write_log] in Hp1, Ht1, Hi1, Ha1.
  destruct (handleAfterInit_ok s1 w2) as (s2 & lg & Hrun2 & Hp2 & _ & Ht2 & _ & Hi2 & Ha2).
  { rewrite Hp1, Hw1. exact Hafter. }
  rewrite (Start_finished _ _ Hexp), (startupUnit_init_ok _ _ Hrun1), Hrun2.
  exists (successReport s2). unfold successReport. cbn [agent trace write_log].
  rewrite Hi2, Ha2, Ht2, Hi1, Ha1, Ht1, Hp1, !app_nil_r.
  split_and!; try reflexivity.
  rewrite !calls_app, calls_initEvents, calls_afterInitEvents, <- app_assoc. reflexivity.
Qed.

(** X10.  [calculateDiff] applied to its own result gives the registered
    plugins that are in the given list; with an empty list it returns the
    whole registered list, with the registered list it returns nothing;
    and its result always keeps the registration order. *)
Theorem calculateDiff_twice (a : Agent) (initialized : list ptr) :
  calculateDiff a (calculateDiff a initialized)
    = filter (fun q => q ∈ initialized) (plugins a)
  /\ calculateDiff a [] = plugins a
  /\ calculateDiff a (plugins a) = []
  /\ calculateDiff a initialized `sublist_of` plugins a.
Proof.
  rewrite !calculateDiff_filter. split_and!.
  - apply filter_ext_elem_of. intros x Hx. rewrite list_elem_of_filter. split.
    + intros Hn. destruct (decide (x ∈ initialized)) as [Hin|Hnin]; [exact Hin|].
      exfalso. apply Hn. by split.
    + intros Hin [Hn _]. by apply Hn.
  - apply filter_all. intros x _. apply not_elem_of_nil.
  - apply filter_none. intros x Hx Hn. by apply Hn.
  - apply sublist_filter.
Qed.

(** An event of the first phase or of a rollback: anything but a call of
    [AfterInit]. *)
Definition before_second_phase (e : Event) : Prop :=
  match e with
  | ECall MAfterInit _ _ => False
  | _ => True
  end.

(** An event of a startup in which nothing has failed yet: a marker write,
    or a call of [Init] or [AfterInit] that returned no error. *)
Definition uneventful (e : Event) : Prop :=
  match e with
  | EMark _ | ECall MInit _ None | ECall MAfterInit _ None => True
  | _ => False
  end.

Lemma initEvents_before_second_phase (l : list ptr) :
  Forall before_second_phase (initEvents l).
Proof.
  induction l as [|p l IH]; [constructor|].
  unfold initEvents. rewrite bind_cons. fold (initEvents l).
  apply Forall_app. split; [|exact IH]. by repeat constructor.
Qed.

Lemma releases_before_second_phase (l : list ptr) (w : W) :
  Forall before_second_phase (releases l w).1.
Proof.
  revert w. induction l as [|p l IH]; intros w; [constructor|]. simpl.
  destruct (Close (Plugin_ (deref p))) as [f|]; simpl; [|apply IH].
  constructor; [exact I|apply IH].
Qed.

Lemma initEvents_uneventful (l : list ptr) : Forall uneventful (initEvents l).
Proof.
  induction l as [|p l IH]; [constructor|].
  unfold initEvents. rewrite bind_cons. fold (initEvents l).
  apply Forall_app. split; [|exact IH]. by repeat constructor.
Qed.

Lemma afterInitEvents_uneventful (l : list ptr) : Forall uneventful (afterInitEvents l).
Proof.
  induction l as [|p l IH]; [constructor|].
  unfold afterInitEvents. rewrite bind_cons. fold (afterInitEvents l).
  apply Forall_app. split; [|exact IH].
  destruct (hasPostInit p); by repeat constructor.
Qed.

(** The trace at any moment of the startup is the beginning of the trace
    the startup ends with. *)
Lemma snapshot_prefix_of_final (n : nat) (s : St) :
  trace (snapshot n s) `prefix_of` trace (run startupUnit (startReport s)).2.
Proof.
  unfold snapshot.
  destruct (stepwise_snapshot extends n startupUnit (startReport s) stepwise_startupUnit)
    as (_ & Hpre & _).
  exact Hpre.
Qed.

Lemma prefix_elem_of {A : Type} (l1 l2 : list A) (x : A) :
  l1 `prefix_of` l2 -> x ∈ l1 -> x ∈ l2.
Proof. intros [t ->] Hx. apply elem_of_app. by left. Qed.

Lemma prefix_snoc_cases {A : Type} (l1 t : list A) (x : A) :
  l1 `prefix_of` t ++ [x] -> l1 = t ++ [x] \/ l1 `prefix_of` t.
Proof.
  intros [u Hu]. destruct u as [|y u _] using rev_ind.
  - left. by rewrite app_nil_r in Hu.
  - right. rewrite app_assoc in Hu. apply app_inj_tail in Hu as [-> _].
    by apply prefix_app_r.
Qed.

(** X11.  The second phase starts only when the first is over for every
    plugin: at any moment of the startup of a new Agent, if the trace
    holds a call of [AfterInit], on whatever plugin and with whatever
    result, then [Init] has been called on every registered plugin and
    has succeeded on each, and those calls are the beginning of the
    trace. *)
Theorem AfterInit_only_after_every_Init (maxStartup : Z) (l : list ptr) (w : W)
  (n : nat) (q : ptr) (r : option error) :
  ECall MAfterInit q r ∈ trace (snapshot n (boot maxStartup l w)) ->
  (exists w1, initsSucceed l w = Some w1)
  /\ initEvents l `prefix_of` trace (snapshot n (boot maxStartup l w)).
Proof.
  intros Hin.
  pose proof (snapshot_prefix_of_final n (boot maxStartup l w)) as Hpre.
  destruct (startupUnit_ending (startReport (boot maxStartup l w)))
    as (r' & s' & Hrun & _ & Hend).
  rewrite Hrun in Hpre. cbn [snd] in Hpre.
  assert (Hlate : forall t, Forall before_second_phase t ->
            ~ trace (snapshot n (boot maxStartup l w)) `prefix_of` t).
  { intros t Ht Hp. pose proof (prefix_elem_of _ _ _ Hp Hin) as Hx.
    rewrite Forall_forall in Ht. exact (Ht _ Hx). }
  destruct Hend as
    [k p wk e s' Hk Hok He Ht Hi Ha
    |w1 k p f wk e s' Hinit Hk Hf Hok He Ht Hi Ha
    |w1 w2 s' Hinit Hafter Ht Hi Ha];
    cbn [startReport boot agent trace world write_log NewAgent plugins] in *;
    rewrite app_nil_l in Ht; rewrite Ht in Hpre.
  - exfalso. eapply Hlate; [|exact Hpre].
    apply Forall_app. split; [apply initEvents_before_second_phase|].
    apply Forall_app. split; [by repeat constructor|apply releases_before_second_phase].
  - split; [by exists w1|].
    destruct (prefix_weak_total _ _ _ Hpre (prefix_app_r _ _ _ (reflexivity (initEvents l))))
      as [H|H]; [|exact H].
    exfalso. exact (Hlate _ (initEvents_before_second_phase l) H).
  - split; [by exists w1|].
    destruct (prefix_weak_total _ _ _ Hpre (prefix_app_r _ _ _ (reflexivity (initEvents l))))
      as [H|H]; [|exact H].
    exfalso. exact (Hlate _ (initEvents_before_second_phase l) H).
Qed.

(** X12.  Release calls are made only to unwind a failure: at any moment
    of the startup of a new Agent, if the trace holds a release call then
    it also holds a call of [Init] or [AfterInit] that returned an
    error. *)
Theorem release_only_after_failure (maxStartup : Z) (l : list ptr) (w : W)
  (n : nat) (q : ptr) (r : option error) :
  ECall MClose q r ∈ trace (snapshot n (boot maxStartup l w)) ->
  exists m p e,
    m <> MClose
    /\ ECall m p (Some e) ∈ trace (snapshot n (boot maxStartup l w)).
Proof.
  intros Hin.
  pose proof (snapshot_prefix_of_final n (boot maxStartup l w)) as Hpre.
  destruct (startupUnit_ending (startReport (boot maxStartup l w)))
    as (r' & s' & Hrun & _ & Hend).
  rewrite Hrun in Hpre. cbn [snd] in Hpre.
  assert (Hquiet : forall t, Forall uneventful t ->
            ~ trace (snapshot n (boot maxStartup l w)) `prefix_of` t).
  { intros t Ht Hp. pose proof (prefix_elem_of _ _ _ Hp Hin) as Hx.
    rewrite Forall_forall in Ht. exact (Ht _ Hx). }
  assert (Hsplit : forall t m p e u,
            m <> MClose -> Forall uneventful t ->
            trace s' = (t ++ [ECall m p (Some e)]) ++ u ->
            exists m p e, m <> MClose
              /\ ECall m p (Some e) ∈ trace (snapshot n (boot maxStartup l w))).
  { intros t m p e u Hm Ht Heq. rewrite Heq in Hpre.
    destruct (prefix_weak_total _ _ _ Hpre
                (prefix_app_r _ _ u (reflexivity (t ++ [ECall m p (Some e)]))))
      as [H|H].
    - exfalso. apply prefix_snoc_cases in H as [H|H].
      + rewrite H in Hin. apply elem_of_app in Hin as [Hin|Hin].
        * rewrite Forall_forall in Ht. exact (Ht _ Hin).
        * apply list_elem_of_singleton in Hin. inversion Hin; subst. by apply Hm.
      + exact (Hquiet _ Ht H).
    - exists m, p, e. split; [exact Hm|].
      apply (prefix_elem_of _ _ _ H). apply elem_of_app. right. by left. }
  destruct Hend as
    [k p wk e s' Hk Hok He Ht Hi Ha
    |w1 k p f wk e s' Hinit Hk Hf Hok He Ht Hi Ha
    |w1 w2 s' Hinit Hafter Ht Hi Ha];
    cbn [startReport boot agent trace world write_log NewAgent plugins] in *;
    rewrite app_nil_l in Ht.
  - apply (Hsplit (initEvents (take k l) ++ [EMark (initMark p)]) MInit p e
             (releases (reverse (take (S k) l)) (Init (Plugin_ (deref p)) wk).2).1).
    + discriminate.
    + apply Forall_app. split; [apply initEvents_uneventful|by repeat constructor].
    + rewrite Ht. by rewrite <- !app_assoc.
  - apply (Hsplit (initEvents l ++ afterInitEvents (take k l) ++ [EMark (afterInitMark p)])
             MAfterInit p e (releases (reverse l) (f wk).2).1).
    + discriminate.
    + apply Forall_app. split; [apply initEvents_uneventful|].
      apply Forall_app. split; [apply afterInitEvents_uneventful|by repeat constructor].
    + rewrite Ht. by rewrite <- !app_assoc.
  - exfalso. rewrite Ht in Hpre. eapply Hquiet; [|exact Hpre].
    apply Forall_app. split; [apply initEvents_uneventful|apply afterInitEvents_uneventful].
Qed.

(** When the goroutine of a new Agent is done, the marker is the last of
    the values written to it. *)
Lemma final_marker (maxStartup : Z) (l : list ptr) (w : W) :
  marker_is_last_mark (run startupUnit (startReport (boot maxStartup l w))).2.
Proof.
  pose proof (snapshot_marker (steps startupUnit (startReport (boot maxStartup l w)))
                maxStartup l w) as H.
  unfold snapshot in H. rewrite runN_finished in H by reflexivity.
  by destruct (run startupUnit (startReport (boot maxStartup l w))) as [[r|] s'].
Qed.

(** X13.  After a [Start] that returned the error of a plugin, the
    currently-processing marker still names that plugin and the phase
    that failed: [name Init()] when the error is that of [Init],
    [name AfterInit()] when it is that of [AfterInit].  The rollback does
    not touch the marker. *)
Theorem failed_Start_marker_names_culprit (expiry : nat) (maxStartup : Z) (l : list ptr)
  (w : W) (err : error) :
  steps startupUnit (startReport (boot maxStartup l w)) <= expiry ->
  (Start expiry (boot maxStartup l w)).1 = Returned (Some err) ->
  exists p e d,
    p ∈ l
    /\ ((err = logErrorFmt (name_of p) e d
         /\ currentlyProcessing (startup_ (agent (Start expiry (boot maxStartup l w)).2))
            = initMark p)
        \/ (hasPostInit p
            /\ err = logPostErrorFmt (name_of p) e d
            /\ currentlyProcessing (startup_ (agent (Start expiry (boot maxStartup l w)).2))
               = afterInitMark p)).
Proof.
  intros Hexp. rewrite (Start_finished _ _ Hexp).
  pose proof (final_marker maxStartup l w) as Hmark.
  destruct (startupUnit_ending (startReport (boot maxStartup l w)))
    as (r & s' & Hrun & _ & Hend).
  rewrite Hrun in Hmark |- *. cbn [snd] in Hmark. unfold marker_is_last_mark in Hmark.
  destruct Hend as
    [k p wk e s' Hk Hok He Ht Hi Ha
    |w1 k p f wk e s' Hinit Hk Hf Hok He Ht Hi Ha
    |w1 w2 s' Hinit Hafter Ht Hi Ha];
    cbn [startReport boot agent trace world write_log NewAgent plugins] in *;
    rewrite app_nil_l in Ht; cbn [fst snd failureReport agent write_log];
    intros Herr.
  - exists p, e, (Duration_sub (now (world s')) (now w)).
    split; [by eapply list_elem_of_lookup_2|]. left.
    split; [by inversion Herr|].
    rewrite Hmark, Ht, !marks_app, marks_initEvents, marks_releases, app_nil_r.
    change (marks [EMark (initMark p); ECall MInit p (Some e)]) with [initMark p].
    by rewrite last_snoc.
  - exists p, e, (Duration_sub (now (world s')) (now w1)).
    split; [by eapply list_elem_of_lookup_2|]. right.
    split; [unfold hasPostInit; by rewrite Hf|].
    split; [by inversion Herr|].
    rewrite Hmark, Ht, !marks_app, marks_initEvents, marks_afterInitEvents,
      marks_releases, app_nil_r.
    change (marks [EMark (afterInitMark p); ECall MAfterInit p (Some e)])
      with [afterInitMark p].
    by rewrite !app_assoc, last_snoc.
  - discriminate Herr.
Qed.

(** X14.  A successful [Start] does not clear the currently-processing
    marker: afterwards it still holds [name AfterInit()] for the last
    registered plugin, whether that plugin implements the second phase or
    not, and it is empty only when no plugin is registered. *)
Theorem successful_Start_leaves_marker (expiry : nat) (maxStartup : Z) (l : list ptr)
  (w : W) :
  steps startupUnit (startReport (boot maxStartup l w)) <= expiry ->
  (Start expiry (boot maxStartup l w)).1 = Returned None ->
  currentlyProcessing (startup_ (agent (Start expiry (boot maxStartup l w)).2))
    = default "" (afterInitMark <$> last l).
Proof.
  intros Hexp. rewrite (Start_finished _ _ Hexp).
  pose proof (final_marker maxStartup l w) as Hmark.
  destruct (startupUnit_ending (startReport (boot maxStartup l w)))
    as (r & s' & Hrun & _ & Hend).
  rewrite Hrun in Hmark |- *. cbn [snd] in Hmark. unfold marker_is_last_mark in Hmark.
  destruct Hend as
    [k p wk e s' Hk Hok He Ht Hi Ha
    |w1 k p f wk e s' Hinit Hk Hf Hok He Ht Hi Ha
    |w1 w2 s' Hinit Hafter Ht Hi Ha];
    cbn [startReport boot agent trace world write_log NewAgent plugins] in *;
    rewrite app_nil_l in Ht; cbn [fst snd successReport agent write_log];
    intros Herr; try discriminate Herr.
  rewrite Hmark, Ht, !marks_app, marks_initEvents, marks_afterInitEvents.
  destruct l as [|p l0 _] using rev_ind; [reflexivity|].
  rewrite !fmap_app, !app_assoc, last_snoc.
  change (afterInitMark <$> [p]) with [afterInitMark p]. by rewrite last_snoc.
Qed.




End Core.

(** ** A sample agent

    The world is the clock reading.  Plugin [A] has no second phase, [B]
    fails in [Init] and in its release operation, [C] fails in [AfterInit]
    and has no release operation, [D] succeeds throughout. *)
Module Sample.

Definition now (w : Z) : Z := w.

Definition succeeds (ns : Z) (w : Z) : option error * Z := (None, (w + ns)%Z).

Definition fails (msg : string) (ns : Z) (w : Z) : option error * Z :=
  (Some msg, (w + ns)%Z).

Definition deref (p : ptr) : NamedPlugin :=
  match p with
  | 0 => mkNamed "A" (mkPlugin (succeeds 5) None (Some (succeeds 1)))
  | 1 => mkNamed "B" (mkPlugin (fails "boom" 7) (Some (succeeds 2)) (Some (fails "stuck" 3)))
  | 2 => mkNamed "C" (mkPlugin (succeeds 4) (Some (fails "late" 6)) None)
  | _ => mkNamed "D" (mkPlugin (succeeds 1) (Some (succeeds 2)) (Some (succeeds 3)))
  end.

Definition start (expiry : nat) (l : list ptr) : outcome (option error) * St :=
  Start now "v1" "today" deref expiry (boot 1000 l 0%Z).

End Sample.

(** The scenario [A(ok), B(fails Init), C(ok)]: [Init(A)], [Init(B)], then
    [Close(B)], [Close(A)]; nothing on [C], no [AfterInit]. *)
Example start_A_B_C :
  (Sample.start 100 [0; 1; 2]).1 = Returned (Some "plugin B: init error 'boom', duration 16")
  /\ trace (Sample.start 100 [0; 1; 2]).2 =
     [EMark "A Init()"; ECall MInit 0 None;
      EMark "B Init()"; ECall MInit 1 (Some "boom");
      ECall MClose 1 (Some "stuck"); ECall MClose 0 None].
Proof. split; vm_compute; reflexivity. Qed.

(** The timer fires while [Init] of [A] is under way (the marker is
    written, the call not completed), and before anything has begun. *)
Example start_expires :
  (Sample.start 3 [0; 3]).1 = Returned (Some "plugin A Init() not completed before timeout")
  /\ trace (Sample.start 3 [0; 3]).2 = [EMark "A Init()"]
  /\ (Sample.start 0 [0; 3]).1 = Returned (Some "plugin  not completed before timeout").
Proof. split_and!; vm_compute; reflexivity. Qed.

Example stop_aggregates :
  (run (Stop Sample.deref) (boot 10 [0; 1; 2; 3] 0%Z)).1 = Returned (Some "B: stuck")
  /\ trace (run (Stop Sample.deref) (boot 10 [0; 1; 2; 3] 0%Z)).2 =
     [ECall MClose 3 None; ECall MClose 1 (Some "stuck"); ECall MClose 0 None].
Proof. split; vm_compute; reflexivity. Qed.

(** ** The properties at the sample agent *)

Lemma Start_init_failure_rollback_witness :
  exists s',
    Sample.start 100 [0; 1; 2] =
      (Returned
         (Some (logErrorFmt (name_of Sample.deref 1) "boom"
                  (Duration_sub (Sample.now (world s')) 0))),
       s')
    /\ calls (trace s') = [(MInit, 0); (MInit, 1); (MClose, 1); (MClose, 0)].
Proof.
  destruct (Start_init_failure_rollback Sample.now "v1" "today" Sample.deref
              100 (boot 1000 [0; 1; 2] 0%Z) 1 1 5%Z "boom") as (s' & H1 & H2 & _).
  - apply Nat.leb_le. vm_compute. reflexivity.
  - reflexivity.
  - vm_compute. reflexivity.
  - reflexivity.
  - exists s'. split; [exact H1|exact H2].
Defined.

Lemma Start_afterInit_failure_unwinds_all_witness :
  exists s',
    Sample.start 100 [0; 3; 2] =
      (Returned
         (Some (logPostErrorFmt (name_of Sample.deref 2) "late"
                  (Duration_sub (Sample.now (world s')) 10))),
       s')
    /\ calls (trace s') =
       [(MInit, 0); (MInit, 3); (MInit, 2); (MAfterInit, 3); (MAfterInit, 2);
        (MClose, 3); (MClose, 0)].
Proof.
  destruct (Start_afterInit_failure_unwinds_all Sample.now "v1" "today" Sample.deref
              100 (boot 1000 [0; 3; 2] 0%Z) 2 2 (Sample.fails "late" 6) 10%Z 12%Z "late")
    as (s' & H1 & H2 & _).
  - apply Nat.leb_le. vm_compute. reflexivity.
  - vm_compute. reflexivity.
  - reflexivity.
  - reflexivity.
  - vm_compute. reflexivity.
  - reflexivity.
  - exists s'. split; [exact H1|exact H2].
Defined.

Lemma Start_all_succeed_witness :
  exists s',
    Sample.start 100 [0; 3] = (Returned None, s')
    /\ plugins (agent s') = [0; 3]
    /\ initSuccess (startup_ (agent s')) = [0; 3]
    /\ afterInitSuccess (startup_ (agent s')) = [3].
Proof.
  apply (Start_all_succeed Sample.now "v1" "today" Sample.deref
           100 1000 [0; 3] 0%Z 6%Z 8%Z [] []).
  - apply Nat.leb_le. vm_compute. reflexivity.
  - vm_compute. reflexivity.
  - vm_compute. reflexivity.
Defined.


Lemma initPlugins_error_ignores_release_errors_witness :
  exists s',
    run (initPlugins Sample.now Sample.deref) (boot 1000 [0; 1; 2] 0%Z) =
      (Returned
         (Some (logErrorFmt (name_of Sample.deref 1) "boom"
                  (Duration_sub (Sample.now (world s')) 0))),
       s')
    /\ world s' = 16%Z
    /\ logs s' =
       [mkLog LInfo [] [VStr "plugin A: init success"];
        mkLog LWarn [] [VStr "err closing "; VStr "B"; VStr " "; VErr (Some "stuck")]].
Proof.
  destruct (initPlugins_error_ignores_release_errors Sample.now Sample.deref
              (boot 1000 [0; 1; 2] 0%Z) 1 1 5%Z "boom") as (s' & H1 & H2 & H3 & H4).
  - reflexivity.
  - vm_compute. reflexivity.
  - reflexivity.
  - exists s'. split_and!; [exact H1|exact H2|exact H3].
Defined.

Lemma plugin_without_PostInit_is_skipped_witness :
  (ECall MAfterInit 0 None ∉
     trace (snapshot Sample.now "v1" "today" Sample.deref 30 (boot 1000 [0; 3; 2] 0%Z)))
  /\ (0 ∉ afterInitSuccess
            (startup_
               (agent (snapshot Sample.now "v1" "today" Sample.deref 30
                         (boot 1000 [0; 3; 2] 0%Z))))).
Proof.
  apply (plugin_without_PostInit_is_skipped Sample.now "v1" "today" Sample.deref 0).
  reflexivity.
Defined.

Lemma calculateDiff_partition_witness :
  calculateDiff (NewAgent 1000 [0; 1; 2]) [0; 2] = [1]
  /\ [0; 2] ++ calculateDiff (NewAgent 1000 [0; 1; 2]) [0; 2] ≡ₚ [0; 1; 2].
Proof.
  destruct (calculateDiff_partition (NewAgent 1000 [0; 1; 2]) [0; 2])
    as (H1 & H2 & H3 & H4).
  - intros x. rewrite !elem_of_cons. simpl. rewrite !elem_of_cons. intuition.
  - split; [vm_compute; reflexivity|].
    apply H4; simpl.
    + repeat (apply NoDup_cons; split; [rewrite ?elem_of_cons, ?elem_of_nil; lia|]).
      apply NoDup_nil_2.
    + apply sublist_skip, sublist_cons, sublist_skip, sublist_nil.
Defined.


(** ** The further properties at the sample agent *)


Lemma Stop_after_failed_Init_witness :
  exists r s',
    run (Stop Sample.deref) (Sample.start 100 [0; 1; 2]).2 = (Returned r, s')
    /\ calls (trace s') =
       [(MInit, 0); (MInit, 1); (MClose, 1); (MClose, 0); (MClose, 1); (MClose, 0)].
Proof.
  apply (Stop_after_failed_Init Sample.now "v1" "today" Sample.deref
           100 (boot 1000 [0; 1; 2] 0%Z) 1 1 5%Z "boom").
  - apply Nat.leb_le. vm_compute. reflexivity.
  - reflexivity.
  - vm_compute. reflexivity.
  - reflexivity.
Defined.

Lemma failure_report_after_failed_Init_witness :
  last (logs (Sample.start 100 [0; 1; 2]).2) =
    Some (mkLog LError
            [("AfterInitFail: ", VPlugins [0; 1; 2]);
             ("AfterInit succ: ", VPlugins []);
             ("Init succ: ", VPlugins [0]);
             ("Init fail: ", VPlugins [1; 2])]
            [VStr "Agent failed to start"]).
Proof.
  apply (failure_report_after_failed_Init Sample.now "v1" "today" Sample.deref
           100 1000 [0; 1; 2] 0%Z 1 1 5%Z "boom").
  - apply Nat.leb_le. vm_compute. reflexivity.
  - reflexivity.
  - vm_compute. reflexivity.
  - reflexivity.
Defined.

Lemma Start_records_durations_witness :
  initDuration (startup_ (agent (Sample.start 100 [0; 3]).2)) = 6%Z
  /\ afterInitDuration (startup_ (agent (Sample.start 100 [0; 3]).2)) = 2%Z
  /\ MaxStartupTime (startup_ (agent (Sample.start 100 [0; 3]).2)) = 1000%Z
  /\ last (logs (Sample.start 100 [0; 3]).2) =
     Some (mkLog LInfo [("durationNs:", VInt 8)]
             [VStr "All plugins initialized successfully"]).
Proof.
  apply (Start_records_durations Sample.now "v1" "today" Sample.deref
           100 (boot 1000 [0; 3] 0%Z) 6%Z 8%Z).
  - apply Nat.leb_le. vm_compute. reflexivity.
  - vm_compute. reflexivity.
  - vm_compute. reflexivity.
Defined.

Lemma failed_Init_records_no_duration_witness :
  initDuration (startup_ (agent (Sample.start 100 [0; 1; 2]).2)) = 0%Z
  /\ afterInitDuration (startup_ (agent (Sample.start 100 [0; 1; 2]).2)) = 0%Z
  /\ MaxStartupTime (startup_ (agent (Sample.start 100 [0; 1; 2]).2)) = 1000%Z.
Proof.
  apply (failed_Init_records_no_duration Sample.now "v1" "today" Sample.deref
           100 (boot 1000 [0; 1; 2] 0%Z) 1 1 5%Z "boom").
  - apply Nat.leb_le. vm_compute. reflexivity.
  - reflexivity.
  - vm_compute. reflexivity.
  - reflexivity.
Defined.

Lemma failed_AfterInit_records_first_duration_witness :
  initDuration (startup_ (agent (Sample.start 100 [0; 3; 2]).2)) = 10%Z
  /\ afterInitDuration (startup_ (agent (Sample.start 100 [0; 3; 2]).2)) = 0%Z.
Proof.
  apply (failed_AfterInit_records_first_duration Sample.now "v1" "today" Sample.deref
           100 (boot 1000 [0; 3; 2] 0%Z) 2 2 (Sample.fails "late" 6) 10%Z 12%Z "late").
  - apply Nat.leb_le. vm_compute. reflexivity.
  - vm_compute. reflexivity.
  - reflexivity.
  - reflexivity.
  - vm_compute. reflexivity.
  - reflexivity.
Defined.

(** A second [Start] of the Agent that [Sample.start 100 [0; 3]] leaves. *)
Lemma Start_appends_to_success_lists_witness :
  exists s',
    Start Sample.now "v1" "today" Sample.deref 100 (Sample.start 100 [0; 3]).2
      = (Returned None, s')
    /\ initSuccess (startup_ (agent s')) = [0; 3; 0; 3]
    /\ afterInitSuccess (startup_ (agent s')) = [3; 3]
    /\ calls (trace s') =
       [(MInit, 0); (MInit, 3); (MAfterInit, 3); (MInit, 0); (MInit, 3); (MAfterInit, 3)].
Proof.
  apply (Start_appends_to_success_lists Sample.now "v1" "today" Sample.deref
           100 (Sample.start 100 [0; 3]).2 14%Z 16%Z).
  - apply Nat.leb_le. vm_compute. reflexivity.
  - vm_compute. reflexivity.
  - vm_compute. reflexivity.
Defined.

Lemma AfterInit_only_after_every_Init_witness :
  (exists w1, initsSucceed Sample.deref [0; 3; 2] 0%Z = Some w1)
  /\ initEvents Sample.deref [0; 3; 2]
       `prefix_of` trace (snapshot Sample.now "v1" "today" Sample.deref 40
                            (boot 1000 [0; 3; 2] 0%Z)).
Proof.
  apply (AfterInit_only_after_every_Init Sample.now "v1" "today" Sample.deref
           1000 [0; 3; 2] 0%Z 40 3 None).
  apply (list_elem_of_lookup_2 _ 8). vm_compute. reflexivity.
Defined.

Lemma release_only_after_failure_witness :
  exists m p e,
    m <> MClose
    /\ ECall m p (Some e) ∈
         trace (snapshot Sample.now "v1" "today" Sample.deref 15 (boot 1000 [0; 1; 2] 0%Z)).
Proof.
  apply (release_only_after_failure Sample.now "v1" "today" Sample.deref
           1000 [0; 1; 2] 0%Z 15 0 None).
  apply (list_elem_of_lookup_2 _ 5). vm_compute. reflexivity.
Defined.

Lemma failed_Start_marker_names_culprit_witness :
  exists p e d,
    p ∈ [0; 3; 2]
    /\ (("plugin C: post-init error 'late', duration 12" = logErrorFmt (name_of Sample.deref p) e d
         /\ currentlyProcessing (startup_ (agent (Sample.start 100 [0; 3; 2]).2))
            = initMark Sample.deref p)
        \/ (hasPostInit Sample.deref p
            /\ "plugin C: post-init error 'late', duration 12"
               = logPostErrorFmt (name_of Sample.deref p) e d
            /\ currentlyProcessing (startup_ (agent (Sample.start 100 [0; 3; 2]).2))
               = afterInitMark Sample.deref p)).
Proof.
  apply (failed_Start_marker_names_culprit Sample.now "v1" "today" Sample.deref
           100 1000 [0; 3; 2] 0%Z "plugin C: post-init error 'late', duration 12").
  - apply Nat.leb_le. vm_compute. reflexivity.
  - vm_compute. reflexivity.
Defined.

Lemma successful_Start_leaves_marker_witness :
  currentlyProcessing (startup_ (agent (Sample.start 100 [3; 0]).2)) = "A AfterInit()".
Proof.
  apply (successful_Start_leaves_marker Sample.now "v1" "today" Sample.deref
           100 1000 [3; 0] 0%Z).
  - apply Nat.leb_le. vm_compute. reflexivity.
  - vm_compute. reflexivity.
Defined.

